(** * HowProgrammingWork: the C++ container and smart-pointer examples

    A shallow embedding of three programs of the repository,

    - [ProgrammingBasics/25-Generics-master/C++/2-list.cpp]
      (the doubly linked [List<T>] with [push] and [display]),
    - [C++/9. Standard Template Library (STL)/13. Stack/main.cpp]
      ([std::stack] over its backing containers, and [display]),
    - [C++/6. Smart Pointers/3. WeakPointers/main.cpp]
      (classes [A] and [B] tied by a [shared_ptr] and a [weak_ptr]),

    and the properties of them that the specification talks about.

    C++ statements are embedded as computations in a state monad whose
    results tell a normal return from an exception and from undefined
    behaviour. *)

From Stdlib Require Import Ascii.
From stdpp Require Import base option list strings gmap.


(** ** Outcomes of C++ statements *)

Module Cpp.

(** What makes a statement's behaviour undefined in these programs. *)
Inductive fault : Set :=
| IndeterminateRead     (* reading a member that was never assigned *)
| NullDereference       (* [p->m] with [p == NULL] *)
| InvalidPointer        (* [p->m] with [p] not pointing to a live object *)
| EmptyContainerAccess. (* [back()] or [pop_back()] on an empty container *)

(** The error kind the specification names for the stack. No source
    file declares or throws it; it is here so that the specification's
    wording can be stated and compared with the code. *)
Inductive exception : Set :=
| EmptyStackError.

Inductive outcome (S A : Type) : Type :=
| Returns (a : A) (s : S)            (* normal completion *)
| Throws (e : exception) (s : S)     (* an exception leaves the statement *)
| Undefined (f : fault) (s : S)      (* undefined behaviour, reached in [s] *)
| OutOfFuel.                         (* the loop bound of the model was hit *)
Global Arguments Returns {S A} a s.
Global Arguments Throws {S A} e s.
Global Arguments Undefined {S A} f s.
Global Arguments OutOfFuel {S A}.

Definition M (S A : Type) : Type := S → outcome S A.

Definition run {S A} (m : M S A) (s : S) : outcome S A := m s.

Global Instance M_ret {S} : MRet (M S) := λ A a s, Returns a s.

Global Instance M_bind {S} : MBind (M S) := λ A B f m s,
  match m s with
  | Returns a s' => f a s'
  | Throws e s' => Throws e s'
  | Undefined u s' => Undefined u s'
  | OutOfFuel => OutOfFuel
  end.

Definition get {S} : M S S := λ s, Returns s s.
Definition put {S} (s : S) : M S unit := λ _, Returns tt s.
Definition modify {S} (f : S → S) : M S unit := λ s, Returns tt (f s).
Definition undefined {S A} (u : fault) : M S A := λ s, Undefined u s.
Definition out_of_fuel {S A} : M S A := λ _, OutOfFuel.

End Cpp.

Import Cpp.

(** ** The linked list of [2-list.cpp] *)

Module LinkedList.

Definition loc := positive.

(** A [ListItem<T>*]: [NULL] or the address of a node. *)
Definition pointer := option loc.
Abbreviation NULL := (@None loc).

(** A data member after [new ListItem<T>]: the struct has no constructor
    and no member initialiser, so a member holds nothing definite until
    the first assignment to it. *)
Inductive slot (A : Type) : Type :=
| Indeterminate
| Holds (a : A).
Global Arguments Indeterminate {A}.
Global Arguments Holds {A} a.

Section ListOf.
Context {T : Type}.

Record ListItem : Type := mkListItem {
  next : slot pointer;
  prev : slot pointer;
  data : slot T;
}.

Record List : Type := mkList {
  head : pointer;
  tail : pointer;
}.

(** The free store, the one [List] object of [main], and the lines
    written to [std::cout]. *)
Record state : Type := mkState {
  heap : gmap loc ListItem;
  this : List;
  cout : list T;
}.

Definition set_next (p : slot pointer) (n : ListItem) : ListItem :=
  mkListItem p (prev n) (data n).
Definition set_prev (p : slot pointer) (n : ListItem) : ListItem :=
  mkListItem (next n) p (data n).
Definition set_data (d : slot T) (n : ListItem) : ListItem :=
  mkListItem (next n) (prev n) d.

Definition with_heap (h : gmap loc ListItem) (s : state) : state :=
  mkState h (this s) (cout s).
Definition with_this (l : List) (s : state) : state :=
  mkState (heap s) l (cout s).
Definition with_cout (o : list T) (s : state) : state :=
  mkState (heap s) (this s) o.

(** [p->...]: the node [p] points to. *)
Definition deref (p : pointer) : M state (loc * ListItem) :=
  s ← get;
  match p with
  | None => undefined NullDereference
  | Some l =>
      match heap s !! l with
      | None => undefined InvalidPointer
      | Some n => mret (l, n)
      end
  end.

(** Reading a member. *)
Definition read {A} (x : slot A) : M state A :=
  match x with
  | Indeterminate => undefined IndeterminateRead
  | Holds a => mret a
  end.

Definition load_next (p : pointer) : M state pointer :=
  '(_, n) ← deref p; read (next n).
Definition load_prev (p : pointer) : M state pointer :=
  '(_, n) ← deref p; read (prev n).
Definition load_data (p : pointer) : M state T :=
  '(_, n) ← deref p; read (data n).

(** Assigning a member. *)
Definition store (f : ListItem → ListItem) (p : pointer) : M state unit :=
  '(l, n) ← deref p;
  modify (λ s, with_heap (<[l := f n]> (heap s)) s).

Definition store_next (p q : pointer) : M state unit :=
  store (set_next (Holds q)) p.
Definition store_prev (p q : pointer) : M state unit :=
  store (set_prev (Holds q)) p.
Definition store_data (p : pointer) (v : T) : M state unit :=
  store (set_data (Holds v)) p.

(** [new ListItem<T>]: a node at an address not in use, no member
    assigned. (A [data] of class type is default-constructed; [push]
    assigns it before anything reads it.) *)
Definition new_ListItem : M state pointer :=
  s ← get;
  let l := fresh (dom (heap s)) in
  put (with_heap (<[l := mkListItem Indeterminate Indeterminate Indeterminate]>
                    (heap s)) s);;
  mret (Some l).

Definition get_head : M state pointer := s ← get; mret (head (this s)).
Definition get_tail : M state pointer := s ← get; mret (tail (this s)).
Definition put_head (p : pointer) : M state unit :=
  modify (λ s, with_this (mkList p (tail (this s))) s).
Definition put_tail (p : pointer) : M state unit :=
  modify (λ s, with_this (mkList (head (this s)) p) s).

(** [std::cout << v << "\n"]. *)
Definition print (v : T) : M state unit :=
  modify (λ s, with_cout (cout s ++ [v]) s).

(** [List<T>() { head = NULL; tail = NULL; }] *)
Definition List_ctor : M state unit :=
  put_head NULL;; put_tail NULL.

(** [void push(T value)] *)
Definition push (value : T) : M state unit :=
  item ← new_ListItem;
  store_data item value;;
  h ← get_head;
  match h with
  | None => put_head item
  | Some _ =>
      t ← get_tail;
      store_prev item t;;
      t ← get_tail;
      store_next t item
  end;;
  put_tail item.

(** The loop of [display]; each iteration spends one unit of [fuel]. *)
Fixpoint display_loop (fuel : nat) (current : pointer) : M state unit :=
  match current with
  | None => mret tt
  | Some _ =>
      match fuel with
      | O => out_of_fuel
      | S fuel' =>
          d ← load_data current;
          print d;;
          nxt ← load_next current;
          display_loop fuel' nxt
      end
  end.

(** [void display()] *)
Definition display (fuel : nat) : M state unit :=
  current ← get_head;
  display_loop fuel current.

(** [List<T>] declares no destructor: the implicit one destroys the two
    pointer members, which does nothing, and no [delete] is run. *)
Definition List_dtor : M state unit := mret tt.

(** A sequence of calls [push(v1); ...; push(vn);]. *)
Fixpoint pushes (vs : list T) : M state unit :=
  match vs with
  | [] => mret tt
  | v :: vs' => push v;; pushes vs'
  end.

(** Following [k] successor links from [p], and [k] back links. *)
Fixpoint walk_next (k : nat) (p : pointer) : M state pointer :=
  match k with
  | O => mret p
  | S k' => q ← load_next p; walk_next k' q
  end.

Fixpoint walk_prev (k : nat) (p : pointer) : M state pointer :=
  match k with
  | O => mret p
  | S k' => q ← load_prev p; walk_prev k' q
  end.

(** The state in which [main] declares its list: any free store [h],
    output [o] so far, and the constructor run. *)
Definition declared (h : gmap loc ListItem) (o : list T) : state :=
  mkState h (mkList NULL NULL) o.

(** *** The shape of a list after some pushes

    [ls] are the addresses of the nodes in the order of their
    allocation, [vs] the values pushed. The node at position [i] has
    its [next] assigned exactly when a later node exists, and its
    [prev] exactly when an earlier one does. *)
Definition link (o : option loc) : slot pointer :=
  match o with
  | Some l => Holds (Some l)
  | None => Indeterminate
  end.

Definition expected (ls : list loc) (i : nat) (v : T) : ListItem :=
  mkListItem (link (ls !! S i))
             (match i with O => Indeterminate | S j => link (ls !! j) end)
             (Holds v).

Record chain (ls : list loc) (vs : list T) (s : state) : Prop := mkChain {
  chain_length : length ls = length vs;
  chain_nodup : NoDup ls;
  chain_head : head (this s) = list.head ls;
  chain_tail : tail (this s) = last ls;
  chain_nodes : ∀ i l v,
    ls !! i = Some l → vs !! i = Some v → heap s !! l = Some (expected ls i v);
}.

(** [head] and [tail] are nodes, [k] successor links lead from [head]
    to [tail], and [k] back links lead from [tail] to [head]. *)
Definition links_reach_in (k : nat) (s : state) : Prop :=
  ∃ hd tl, head (this s) = Some hd ∧ tail (this s) = Some tl ∧
           run (walk_next k (Some hd)) s = Returns (Some tl) s ∧
           run (walk_prev k (Some tl)) s = Returns (Some hd) s.

(** Teardown as the specification words it: none of the nodes [ls] of
    the chain is left in the free store. *)
Definition all_released (ls : list loc) (s : state) : Prop :=
  ∀ l, l ∈ ls → heap s !! l = None.

End ListOf.
Global Arguments ListItem : clear implicits.
Global Arguments state : clear implicits.

(** [int main()] of 2-list.cpp, with [T = std::string]. *)
Definition main (fuel : nat) : M (state string) unit :=
  List_ctor;;
  push "Ave"%string;;
  push "Emperor"%string;;
  push "Marcus Aurelius!"%string;;
  display fuel;;
  List_dtor.

(** The state [main] starts in: nothing allocated, nothing printed. *)
Definition start : state string := mkState ∅ (mkList None None) [].

(** [{ List<T> list; list.push(v1); ...; list.push(vn); }]: a list is
    declared, filled, and goes out of scope. *)
Definition scope {T} (vs : list T) : M (state T) unit :=
  List_ctor;;
  pushes vs;;
  List_dtor.

End LinkedList.


(** ** [std::stack] and the program of [13. Stack/main.cpp]

    [std::stack], [std::deque], [std::vector] and [std::list] belong to
    the C++ standard library, not to the repository. The adapter is
    embedded as the standard defines it, by delegation to the container
    it holds; the containers are embedded by what the standard says of
    the operations the adapter calls. [display] and [main] are the
    repository's. *)

Module Stack.

(** What [std::stack<T, Container>] calls on its container: [empty],
    [size], [back], [push_back] and [pop_back]. [back()] yields a
    reference, which the program both reads and assigns through, hence
    the two operations [c_back] and [c_set_back]. [back] and [pop_back]
    require a non-empty container; [None] stands for a call that breaks
    this requirement. *)
Class Container (C : Type → Type) : Type := {
  c_new : ∀ {T}, C T;
  c_empty : ∀ {T}, C T → bool;
  c_size : ∀ {T}, C T → nat;
  c_back : ∀ {T}, C T → option T;
  c_set_back : ∀ {T}, T → C T → option (C T);
  c_push_back : ∀ {T}, T → C T → C T;
  c_pop_back : ∀ {T}, C T → option (C T);
}.

(** The same operations on the plain sequence of elements, front to
    back. *)
Definition seq_pop_back {T} (l : list T) : option (list T) :=
  match l with
  | [] => None
  | _ :: _ => Some (removelast l)
  end.

Definition seq_set_back {T} (x : T) (l : list T) : option (list T) :=
  match l with
  | [] => None
  | _ :: _ => Some (removelast l ++ [x])
  end.

(** The sequence of elements a container holds, front to back. *)
Class Elements (C : Type → Type) : Type :=
  elements : ∀ {T}, C T → list T.

(** A container behaves as a sequence container when its operations
    agree with those on the sequence of its elements. *)
Class SequenceContainer (C : Type → Type) `{Container C, Elements C} : Prop := {
  elements_new : ∀ T, elements (@c_new C _ T) = [];
  empty_elements : ∀ T (c : C T), c_empty c = bool_decide (elements c = []);
  size_elements : ∀ T (c : C T), c_size c = length (elements c);
  back_elements : ∀ T (c : C T), c_back c = last (elements c);
  set_back_elements : ∀ T (x : T) (c : C T),
    elements <$> c_set_back x c = seq_set_back x (elements c);
  push_back_elements : ∀ T (x : T) (c : C T),
    elements (c_push_back x c) = elements c ++ [x];
  pop_back_elements : ∀ T (c : C T),
    elements <$> c_pop_back c = seq_pop_back (elements c);
}.

(** *** Models of the three standard containers the program names *)

(** [std::vector<T>]: the elements in index order. *)
Record vector (T : Type) : Type := mkVector { v_data : list T }.
Global Arguments mkVector {T} _.
Global Arguments v_data {T} _.

Global Instance vector_container : Container vector := {|
  c_new T := mkVector [];
  c_empty T v := match v_data v with [] => true | _ :: _ => false end;
  c_size T v := length (v_data v);
  c_back T v := last (v_data v);
  c_set_back T x v := mkVector <$> seq_set_back x (v_data v);
  c_push_back T x v := mkVector (v_data v ++ [x]);
  c_pop_back T v := mkVector <$> seq_pop_back (v_data v);
|}.

Global Instance vector_elements : Elements vector := λ T v, v_data v.

(** [std::list<T>]: a doubly linked list, reached here from its back
    end: the elements from the last one to the first. *)
Record stdlist (T : Type) : Type := mkStdlist { l_from_back : list T }.
Global Arguments mkStdlist {T} _.
Global Arguments l_from_back {T} _.

Global Instance stdlist_container : Container stdlist := {|
  c_new T := mkStdlist [];
  c_empty T l := match l_from_back l with [] => true | _ :: _ => false end;
  c_size T l := length (l_from_back l);
  c_back T l := list.head (l_from_back l);
  c_set_back T x l :=
    match l_from_back l with [] => None | _ :: r => Some (mkStdlist (x :: r)) end;
  c_push_back T x l := mkStdlist (x :: l_from_back l);
  c_pop_back T l :=
    match l_from_back l with [] => None | _ :: r => Some (mkStdlist r) end;
|}.

Global Instance stdlist_elements : Elements stdlist := λ T l, rev (l_from_back l).

(** [std::deque<T>]: open at both ends; a front part in order and a
    back part from the last element inwards. *)
Record deque (T : Type) : Type := mkDeque { d_front : list T; d_back : list T }.
Global Arguments mkDeque {T} _ _.
Global Arguments d_front {T} _.
Global Arguments d_back {T} _.

Global Instance deque_container : Container deque := {|
  c_new T := mkDeque [] [];
  c_empty T d :=
    match d_front d, d_back d with [], [] => true | _, _ => false end;
  c_size T d := length (d_front d) + length (d_back d);
  c_back T d :=
    match d_back d with x :: _ => Some x | [] => last (d_front d) end;
  c_set_back T x d :=
    match d_back d with
    | _ :: r => Some (mkDeque (d_front d) (x :: r))
    | [] => (λ f, mkDeque f []) <$> seq_set_back x (d_front d)
    end;
  c_push_back T x d := mkDeque (d_front d) (x :: d_back d);
  c_pop_back T d :=
    match d_back d with
    | _ :: r => Some (mkDeque (d_front d) r)
    | [] => (λ f, mkDeque f []) <$> seq_pop_back (d_front d)
    end;
|}.

Global Instance deque_elements : Elements deque :=
  λ T d, d_front d ++ rev (d_back d).

(** The backings the program instantiates [std::stack] with
    ([std::stack<int>] is [std::stack<int, std::deque<int>>]). *)
Inductive Backing : Set := Deque | Vector | StdList.

Definition container_of (B : Backing) : Type → Type :=
  match B with
  | Deque => deque
  | Vector => vector
  | StdList => stdlist
  end.

Global Instance backing_container (B : Backing) : Container (container_of B) :=
  match B with
  | Deque => deque_container
  | Vector => vector_container
  | StdList => stdlist_container
  end.

Global Instance backing_elements (B : Backing) : Elements (container_of B) :=
  match B with
  | Deque => deque_elements
  | Vector => vector_elements
  | StdList => stdlist_elements
  end.

(** *** The adapter *)

Section Adapter.
Context {C : Type → Type} `{Container C} {T : Type}.

(** [std::stack] holds its container in the member [c]. *)
Record stack : Type := mkStack { c : C T }.

(** The elements of a stack, from the bottom to the top. *)
Definition contents `{Elements C} (s : stack) : list T := elements (c s).

Definition stack_new : stack := mkStack c_new.

Definition empty : M stack bool := s ← get; mret (c_empty (c s)).

Definition size : M stack nat := s ← get; mret (c_size (c s)).

(** [s.top()] read as a value, as in [T elem = s.top();]. *)
Definition top : M stack T :=
  s ← get;
  match c_back (c s) with
  | Some x => mret x
  | None => undefined EmptyContainerAccess
  end.

(** [s.top() = v;] *)
Definition top_assign (v : T) : M stack unit :=
  s ← get;
  match c_set_back v (c s) with
  | Some c' => put (mkStack c')
  | None => undefined EmptyContainerAccess
  end.

Definition push (x : T) : M stack unit :=
  modify (λ s, mkStack (c_push_back x (c s))).

Definition pop : M stack unit :=
  s ← get;
  match c_pop_back (c s) with
  | Some c' => put (mkStack c')
  | None => undefined EmptyContainerAccess
  end.

(** What is written to [std::cout]. *)
Inductive token : Type :=
| Str (t : string)
| Elem (x : T)
| Num (n : nat)
| Endl.

(** The variables of a function in this program: a stack [s] ([main]'s
    local, or [display]'s parameter) and the output stream. *)
Record frame : Type := mkFrame { s : stack; cout : list token }.

(** A method call on the variable [s]. *)
Definition on_s {A} (m : M stack A) : M frame A := λ fr,
  match m (s fr) with
  | Returns a s' => Returns a (mkFrame s' (cout fr))
  | Throws e s' => Throws e (mkFrame s' (cout fr))
  | Undefined u s' => Undefined u (mkFrame s' (cout fr))
  | OutOfFuel => OutOfFuel
  end.

Definition write (t : token) : M frame unit :=
  modify (λ fr, mkFrame (s fr) (cout fr ++ [t])).

(** [while (!s.empty()) body], each iteration spending one unit of
    [fuel]. *)
Fixpoint while_not_empty (fuel : nat) (body : M frame unit) : M frame unit :=
  e ← on_s empty;
  if e : bool then mret tt
  else match fuel with
       | O => out_of_fuel
       | S fuel' => body;; while_not_empty fuel' body
       end.

(** The body of [display], run on its parameter [s]. *)
Definition display_body (fuel : nat) : M frame unit :=
  write (Str "[ ");;
  while_not_empty fuel
    (elem ← on_s top;
     on_s pop;;
     write (Elem elem);;
     write (Str " "));;
  write (Str "]");;
  write Endl.

(** The call [display(s)]: the parameter is passed by value, so the
    body runs on a copy of the caller's stack, and the copy is gone
    when the call returns. The stream is shared. *)
Definition display (fuel : nat) : M frame unit := λ caller,
  match display_body fuel (mkFrame (s caller) (cout caller)) with
  | Returns a callee => Returns a (mkFrame (s caller) (cout callee))
  | Throws e callee => Throws e (mkFrame (s caller) (cout callee))
  | Undefined u callee => Undefined u (mkFrame (s caller) (cout callee))
  | OutOfFuel => OutOfFuel
  end.

(** [for (T i : vs) s.push(i);] *)
Fixpoint pushes (vs : list T) : M stack unit :=
  match vs with
  | [] => mret tt
  | v :: vs' => push v;; pushes vs'
  end.

(** [n] times [T elem = s.top(); s.pop();], the values seen in order:
    [pop] returns nothing in C++, a popped value is observed through
    [top] just before. *)
Fixpoint pops (n : nat) : M stack (list T) :=
  match n with
  | O => mret []
  | S n' => elem ← top; pop;; rest ← pops n'; mret (elem :: rest)
  end.

(** [while (!s.empty()) s.pop();] *)
Definition drain (fuel : nat) : M frame unit :=
  while_not_empty fuel (on_s pop).

(** How [display] prints the elements [l], given from the top down. *)
Definition shown (l : list T) : list token :=
  [Str "[ "] ++ flat_map (λ x, [Elem x; Str " "]) l ++ [Str "]"; Endl].

End Adapter.
Global Arguments stack : clear implicits.
Global Arguments frame : clear implicits.
Global Arguments token T : clear implicits.

(** [int main()], over the backing [B] of its stack [s]. *)
Definition main (B : Backing) (fuel : nat) : M (frame (container_of B) Z) unit :=
  on_s (pushes [1; 2; 3; 4; 5]%Z);;
  display fuel;;
  on_s (push 100%Z);;
  display fuel;;
  on_s pop;;
  on_s pop;;
  display fuel;;
  drain fuel;;
  display fuel;;
  n ← on_s size;
  write (Str "Size: ");; write (Num n);; write Endl;;
  on_s (push 10%Z);;
  display fuel;;
  on_s (top_assign 100%Z);;
  display fuel.

Definition start (B : Backing) : frame (container_of B) Z :=
  mkFrame stack_new [].

End Stack.

(** ** The program of [3. WeakPointers/main.cpp]

    [std::shared_ptr] and [std::weak_ptr] belong to the C++ standard
    library; they are embedded by the reference counting the standard
    describes. The classes [A] and [B] and [main] are the repository's. *)

Module WeakPointers.

Definition loc := positive.

(** [class A { std::shared_ptr<B> b_ptr; ... }]: the member is null or
    shares the [B] object at an address. *)
Record A : Type := mkA { b_ptr : option loc }.

(** [class B { std::weak_ptr<A> a_ptr; ... }]: the member is empty or
    observes the [A] object at an address. *)
Record B : Type := mkB { a_ptr : option loc }.

(** What [std::make_shared<X>()] allocates: the object together with its
    two reference counts. [use_count] counts the [shared_ptr]s that own
    the object, [weak_count] the [weak_ptr]s that observe it. [object]
    is [None] once the object has been destroyed; the counts outlive it
    for as long as a [weak_ptr] observes them. *)
Record block (X : Type) : Type := mkBlock {
  use_count : nat;
  weak_count : nat;
  object : option X;
}.
Global Arguments mkBlock {X} _ _ _.
Global Arguments use_count {X} _.
Global Arguments weak_count {X} _.
Global Arguments object {X} _.

(** The free store, with the [A] objects apart from the [B] objects, and
    the lines written to [std::cout]. *)
Record state : Type := mkState {
  As : gmap loc (block A);
  Bs : gmap loc (block B);
  cout : list string;
}.

Definition with_As (f : gmap loc (block A) → gmap loc (block A)) (st : state) : state :=
  mkState (f (As st)) (Bs st) (cout st).
Definition with_Bs (f : gmap loc (block B) → gmap loc (block B)) (st : state) : state :=
  mkState (As st) (f (Bs st)) (cout st).

(** [cout << line << endl] *)
Definition print (line : string) : M state unit :=
  modify (λ st, mkState (As st) (Bs st) (cout st ++ [line])).

(** The block a non-null pointer refers to. *)
Definition block_A (l : loc) : M state (block A) :=
  st ← get;
  match As st !! l with
  | Some blk => mret blk
  | None => undefined InvalidPointer
  end.

Definition block_B (l : loc) : M state (block B) :=
  st ← get;
  match Bs st !! l with
  | Some blk => mret blk
  | None => undefined InvalidPointer
  end.

(** [p->]: the live object a [shared_ptr] owns. *)
Definition deref_A (p : option loc) : M state (loc * A) :=
  match p with
  | None => undefined NullDereference
  | Some l =>
      blk ← block_A l;
      match object blk with
      | Some a => mret (l, a)
      | None => undefined InvalidPointer
      end
  end.

Definition deref_B (p : option loc) : M state (loc * B) :=
  match p with
  | None => undefined NullDereference
  | Some l =>
      blk ← block_B l;
      match object blk with
      | Some b => mret (l, b)
      | None => undefined InvalidPointer
      end
  end.

(** [A() { cout << "A Constructor" << endl; }] under
    [std::make_shared<A>()]: a new object with a null [b_ptr], one owner
    and no observer. *)
Definition make_shared_A : M state (option loc) :=
  st ← get;
  let l := fresh (dom (As st)) in
  put (with_As <[l := mkBlock 1 0 (Some (mkA None))]> st);;
  print "A Constructor";;
  mret (Some l).

(** [B() { cout << "B Constructor" << endl; }] under
    [std::make_shared<B>()]. *)
Definition make_shared_B : M state (option loc) :=
  st ← get;
  let l := fresh (dom (Bs st)) in
  put (with_Bs <[l := mkBlock 1 0 (Some (mkB None))]> st);;
  print "B Constructor";;
  mret (Some l).

(** Copying a [shared_ptr<B>]: one more owner. *)
Definition copy_shared_B (p : option loc) : M state (option loc) :=
  match p with
  | None => mret None
  | Some l =>
      blk ← block_B l;
      modify (with_Bs <[l := mkBlock (S (use_count blk)) (weak_count blk) (object blk)]>);;
      mret (Some l)
  end.

(** Making a [weak_ptr<A>] from a [shared_ptr<A>]: one more observer,
    the owners are not counted again. *)
Definition weak_from_shared_A (p : option loc) : M state (option loc) :=
  match p with
  | None => mret None
  | Some l =>
      blk ← block_A l;
      modify (with_As <[l := mkBlock (use_count blk) (S (weak_count blk)) (object blk)]>);;
      mret (Some l)
  end.

(** The end of a [weak_ptr<A>]: one observer less; the counts are freed
    when nothing owns, nothing observes and the object is gone. *)
Definition release_weak_A (w : option loc) : M state unit :=
  match w with
  | None => mret tt
  | Some l =>
      blk ← block_A l;
      match weak_count blk with
      | O => undefined InvalidPointer
      | S n =>
          match use_count blk, n, object blk with
          | O, O, None => modify (with_As (delete l))
          | _, _, _ =>
              modify (with_As <[l := mkBlock (use_count blk) n (object blk)]>)
          end
      end
  end.

(** The end of a [shared_ptr<B>]: one owner less. The last owner
    destroys the object: with the use count already at zero the body of
    [~B()] runs, then the member [a_ptr] ends, and the object is gone. *)
Definition release_shared_B (p : option loc) : M state unit :=
  match p with
  | None => mret tt
  | Some l =>
      blk ← block_B l;
      match use_count blk, object blk with
      | S (S n), _ =>
          modify (with_Bs <[l := mkBlock (S n) (weak_count blk) (object blk)]>)
      | 1, Some b =>
          modify (with_Bs <[l := mkBlock 0 (weak_count blk) (Some b)]>);;
          print "B Destructor";;
          release_weak_A (a_ptr b);;
          blk' ← block_B l;
          match weak_count blk' with
          | O => modify (with_Bs (delete l))
          | S _ => modify (with_Bs <[l := mkBlock 0 (weak_count blk') None]>)
          end
      | _, _ => undefined InvalidPointer
      end
  end.

(** The end of a [shared_ptr<A>]; the last owner runs the body of
    [~A()], then ends the member [b_ptr]. *)
Definition release_shared_A (p : option loc) : M state unit :=
  match p with
  | None => mret tt
  | Some l =>
      blk ← block_A l;
      match use_count blk, object blk with
      | S (S n), _ =>
          modify (with_As <[l := mkBlock (S n) (weak_count blk) (object blk)]>)
      | 1, Some a =>
          modify (with_As <[l := mkBlock 0 (weak_count blk) (Some a)]>);;
          print "A Destructor";;
          release_shared_B (b_ptr a);;
          blk' ← block_A l;
          match weak_count blk' with
          | O => modify (with_As (delete l))
          | S _ => modify (with_As <[l := mkBlock 0 (weak_count blk') None]>)
          end
      | _, _ => undefined InvalidPointer
      end
  end.

(** [void A::set_B(std::shared_ptr<B> &b) { b_ptr = b; }], called as
    [a->set_B(b)]: the member takes a share of [b]'s object and gives up
    the share it had. *)
Definition set_B (a b : option loc) : M state unit :=
  '(l, obj) ← deref_A a;
  new ← copy_shared_B b;
  blk ← block_A l;
  modify (with_As <[l := mkBlock (use_count blk) (weak_count blk) (Some (mkA new))]>);;
  release_shared_B (b_ptr obj).

(** [void B::set_A(std::shared_ptr<A> &a) { a_ptr = a; }], called as
    [b->set_A(a)]: the member starts to observe [a]'s object. *)
Definition set_A (b a : option loc) : M state unit :=
  '(l, obj) ← deref_B b;
  new ← weak_from_shared_A a;
  blk ← block_B l;
  modify (with_Bs <[l := mkBlock (use_count blk) (weak_count blk) (Some (mkB new))]>);;
  release_weak_A (a_ptr obj).

(** Modelled from the spec: [resolve], which no source file calls (it is
    [std::weak_ptr::lock]). "Returns the live value wrapped for temporary
    strong access if the original owner has not released it, else
    absent. Must never resurrect a released value." The handle returned
    is one more owner for as long as it lives. *)
Definition lock_A (w : option loc) : M state (option loc) :=
  match w with
  | None => mret None
  | Some l =>
      blk ← block_A l;
      match use_count blk with
      | O => mret None
      | S n =>
          modify (with_As <[l := mkBlock (S (S n)) (weak_count blk) (object blk)]>);;
          mret (Some l)
      end
  end.

(** [resolve] on the weak reference that the [B] object of [b] holds. *)
Definition resolve_a_ptr (b : option loc) : M state (option loc) :=
  '(_, obj) ← deref_B b;
  lock_A (a_ptr obj).

(** The four statements of [main] before [return 0]. *)
Definition setup : M state (option loc * option loc) :=
  a ← make_shared_A;
  b ← make_shared_B;
  set_B a b;;
  set_A b a;;
  mret (a, b).

(** [int main()]: at [return 0] the locals end in the reverse order of
    their declaration, [b] before [a]. *)
Definition main : M state unit :=
  '(a, b) ← setup;
  release_shared_B b;;
  release_shared_A a.

(** The scenario of the specification: the owner of the [A] object is
    released while [b] is still held; [B]'s weak reference is resolved
    before and after that; then [b] ends. The handle a successful
    [resolve] returns is released right away. *)
Definition scenario : M state (option loc * option loc * option loc) :=
  '(a, b) ← setup;
  before ← resolve_a_ptr b;
  release_shared_A before;;
  release_shared_A a;;
  after ← resolve_a_ptr b;
  release_shared_B b;;
  mret (a, before, after).

Definition start : state := mkState ∅ ∅ [].

(** [k] owners of the same [A] object ending one after the other. *)
Fixpoint release_shared_A_times (k : nat) (p : option loc) : M state unit :=
  match k with
  | O => mret tt
  | S k' => release_shared_A p;; release_shared_A_times k' p
  end.

(** The member [b_ptr] of an [A] object is null, or the [B] object it
    shares has an owner besides that member. *)
Definition shared_elsewhere (st : state) (p : option loc) : Prop :=
  match p with
  | None => True
  | Some lb => ∃ n w o, Bs st !! lb = Some (mkBlock (S (S n)) w o)
  end.

(** The state [main] is in after its four statements, started in
    [start]. *)
Definition linked : state :=
  mkState {[1%positive := mkBlock 1 1 (Some (mkA (Some 1%positive)))]}
          {[1%positive := mkBlock 2 0 (Some (mkB (Some 1%positive)))]}
          ["A Constructor"; "B Constructor"].

End WeakPointers.

(** ** Sequences of calls on a stack *)

Module StackCalls.
Import Stack.

Section Calls.
Context {C : Type → Type} `{Container C} {T : Type}.

(** One call of a member function of [std::stack] on the stack [s], as
    [main] and [display] make them. *)
Inductive call : Type :=
| Push (x : T)          (* [s.push(x);] *)
| Pop                   (* [s.pop();] *)
| Top                   (* [... = s.top();] *)
| TopAssign (v : T)     (* [s.top() = v;] *)
| Size                  (* [... = s.size();] *)
| Empty.                (* [... = s.empty();] *)

(** What a call lets its caller see. *)
Inductive seen : Type :=
| Nothing
| Value (x : T)
| Count (n : nat)
| Flag (b : bool).

Definition do_call (k : call) : M (stack C T) seen :=
  match k with
  | Push x => push x;; mret Nothing
  | Pop => pop;; mret Nothing
  | Top => x ← top; mret (Value x)
  | TopAssign v => top_assign v;; mret Nothing
  | Size => n ← size; mret (Count n)
  | Empty => b ← empty; mret (Flag b)
  end.

(** The calls [ks] one after the other, with what each of them showed. *)
Fixpoint calls (ks : list call) : M (stack C T) (list seen) :=
  match ks with
  | [] => mret []
  | k :: ks' => o ← do_call k; os ← calls ks'; mret (o :: os)
  end.

Definition is_push (k : call) : bool :=
  match k with Push _ => true | _ => false end.
Definition is_pop (k : call) : bool :=
  match k with Pop => true | _ => false end.

(** An outcome with the stack replaced by its contents. *)
Definition in_contents `{Elements C} {A} (r : outcome (stack C T) A) :
    outcome (list T) A :=
  match r with
  | Returns a s => Returns a (contents s)
  | Throws e s => Throws e (contents s)
  | Undefined u s => Undefined u (contents s)
  | OutOfFuel => OutOfFuel
  end.

(** What one call does, told on the contents alone. *)
Definition call_on_contents (k : call) (l : list T) : outcome (list T) seen :=
  match k with
  | Push x => Returns Nothing (l ++ [x])
  | Pop =>
      match seq_pop_back l with
      | Some l' => Returns Nothing l'
      | None => Undefined EmptyContainerAccess l
      end
  | Top =>
      match last l with
      | Some x => Returns (Value x) l
      | None => Undefined EmptyContainerAccess l
      end
  | TopAssign v =>
      match seq_set_back v l with
      | Some l' => Returns Nothing l'
      | None => Undefined EmptyContainerAccess l
      end
  | Size => Returns (Count (length l)) l
  | Empty => Returns (Flag (bool_decide (l = []))) l
  end.

(** The same for a sequence of calls. *)
Fixpoint calls_on_contents (ks : list call) (l : list T) : outcome (list T) (list seen) :=
  match ks with
  | [] => Returns [] l
  | k :: ks' =>
      match call_on_contents k l with
      | Returns o l' =>
          match calls_on_contents ks' l' with
          | Returns os l'' => Returns (o :: os) l''
          | Throws e l'' => Throws e l''
          | Undefined u l'' => Undefined u l''
          | OutOfFuel => OutOfFuel
          end
      | Throws e l' => Throws e l'
      | Undefined u l' => Undefined u l'
      | OutOfFuel => OutOfFuel
      end
  end.

End Calls.
Global Arguments call : clear implicits.
Global Arguments seen : clear implicits.

End StackCalls.

(** ** The two calls of the weak-pointer program made again *)

Module WeakPointersOrder.
Import WeakPointers.

(** The four statements of [main] with the two calls made twice. *)
Definition setup_twice : M state (option loc * option loc) :=
  '(a, b) ← setup;
  set_B a b;;
  set_A b a;;
  mret (a, b).

End WeakPointersOrder.

(** ** The function template of [1-function.cpp] *)

Module Generics.

Section Max.
Context {T : Type} (lt : T → T → bool).

(** [template <typename T> T max(T x, T y) { return x < y ? y : x; }],
    over the [operator<] of [T]. *)
Definition max (x y : T) : T := if lt x y then y else x.

End Max.

(** [max] at [int]. *)
Definition max_int : Z → Z → Z := max Z.ltb.

End Generics.

(** ** The miles-per-gallon programs of [7. Exception Handling]

    The two numbers are those the variables [miles] and [gallons] hold
    after the two reads from [std::cin]. [double] and its division stay
    abstract. *)

Module Mpg.

(** A function call that returns or leaves by an exception. *)
Inductive result (E A : Type) : Type :=
| Ok (a : A)
| Raise (e : E).
Global Arguments Ok {E A} a.
Global Arguments Raise {E A} e.

Section Console.
Context {double : Type}.

(** What is written to a stream. *)
Inductive item : Type :=
| Text (t : string)
| Real (d : double)
| Endl.

Record console : Type := mkConsole {
  cout : list item;
  cerr : list item;
}.

End Console.
Global Arguments item : clear implicits.
Global Arguments console : clear implicits.

End Mpg.

(** *** [DivideByZeroExceptionClasses/main.cpp] *)

Module MpgClasses.
Import Mpg.

Inductive exception : Set :=
| DivideByZeroException
| NegativeValueException.

Section Program.
Context {double : Type} (to_double : Z → double) (fdiv : double → double → double).

(** [double calculate_mpg(int miles, int gallons)] *)
Definition calculate_mpg (miles gallons : Z) : result exception double :=
  if (gallons =? 0)%Z then Raise DivideByZeroException
  else if (miles <? 0)%Z || (gallons <? 0)%Z then Raise NegativeValueException
  else Ok (fdiv (to_double miles) (to_double gallons)).

(** [int main()]: the streams at the end and the value returned. *)
Definition main (miles gallons : Z) : console double * Z :=
  let prompts := [Text "Enter the miles driven: "; Text "Enter the gallons used: "] in
  let tried :=
    match calculate_mpg miles gallons with
    | Ok miles_per_gallon =>
        mkConsole (prompts ++ [Text "Result: "; Real miles_per_gallon; Endl]) []
    | Raise DivideByZeroException =>
        mkConsole prompts [Text "Sorry, you can't divide by zero"; Endl]
    | Raise NegativeValueException =>
        mkConsole prompts [Text "Sorry, one of your parameters is negative"; Endl]
    end in
  (mkConsole (cout tried ++ [Text "Bye"; Endl]) (cerr tried), 0%Z).

End Program.
End MpgClasses.

(** *** [MPGFunctionExceptionInheritance/main.cpp] *)

Module MpgInheritance.
Import Mpg.

(** The two classes derived from [std::runtime_error]. *)
Inductive exception : Set :=
| DivideByZeroException
| NegativeValueException.

(** [what()], the message each constructor hands to [std::runtime_error]. *)
Definition what (ex : exception) : string :=
  match ex with
  | DivideByZeroException => "Cannot divide by zero"
  | NegativeValueException => "one of your parameters is negative"
  end.

Section Program.
Context {double : Type} (to_double : Z → double) (fdiv : double → double → double).

(** [double calculate_mpg(int miles, int gallons)] *)
Definition calculate_mpg (miles gallons : Z) : result exception double :=
  if (gallons =? 0)%Z then Raise DivideByZeroException
  else if (miles <? 0)%Z || (gallons <? 0)%Z then Raise NegativeValueException
  else Ok (fdiv (to_double miles) (to_double gallons)).

(** [int main()] *)
Definition main (miles gallons : Z) : console double * Z :=
  let prompts := [Text "Enter the miles: "; Text "Enter the gallons: "] in
  let tried :=
    match calculate_mpg miles gallons with
    | Ok miles_per_gallon =>
        mkConsole (prompts ++ [Text "Result: "; Real miles_per_gallon; Endl]) []
    | Raise DivideByZeroException =>
        mkConsole prompts [Text (what DivideByZeroException); Endl]
    | Raise NegativeValueException =>
        mkConsole prompts [Text (what NegativeValueException); Endl]
    end in
  (mkConsole (cout tried ++ [Text "Bye"; Endl]) (cerr tried), 0%Z).

End Program.
End MpgInheritance.

(** *** [MPGRethrow/main.cpp] *)

Module MpgRethrow.
Import Mpg.

(** What the [try] block throws: an [int], a string literal, or a
    [std::string]. *)
Inductive thrown : Type :=
| ThrowInt (n : Z)
| ThrowLiteral (t : string)
| ThrowString (t : string).

Section Program.
Context {double : Type} (to_double : Z → double) (fdiv : double → double → double).

(** The [try] block of [main]: what it writes to [std::cout], unless it
    throws. *)
Definition try_block (miles gallons : Z) : result thrown (list (item double)) :=
  if (gallons =? 0)%Z then Raise (ThrowInt gallons)
  else if (miles <? 0)%Z || (gallons <? 0)%Z then
    Raise (ThrowLiteral "You can have negative miles or gallons")
  else if (1000 <? gallons)%Z then Raise (ThrowString "Huh")
  else Ok [Text "Result: "; Real (fdiv (to_double miles) (to_double gallons)); Endl].

(** [int main()]: the streams, and the value returned or the exception
    that leaves [main]. The handler [catch (...)] writes and throws
    again. *)
Definition main (miles gallons : Z) : console double * result thrown Z :=
  let prompts := [Text "Enter the miles driven: "; Text "Enter the gallons used: "] in
  let bye := [Text "Bye"; Endl] in
  match try_block miles gallons with
  | Ok written => (mkConsole (prompts ++ written ++ bye) [], Ok 0%Z)
  | Raise (ThrowInt ex) =>
      (mkConsole (prompts ++ [Text "Sorry, you can't divide by zero"; Endl] ++ bye) [],
       Ok 0%Z)
  | Raise (ThrowLiteral ex) =>
      (mkConsole (prompts ++ [Text ex; Endl] ++ bye) [], Ok 0%Z)
  | Raise ex =>
      (mkConsole prompts [Text "Unknown error"; Endl], Raise ex)
  end.

End Program.
End MpgRethrow.

Module MpgCompare.

(** The exception classes of the second program, read as those of the
    first. *)
Definition as_classes (ex : MpgInheritance.exception) : MpgClasses.exception :=
  match ex with
  | MpgInheritance.DivideByZeroException => MpgClasses.DivideByZeroException
  | MpgInheritance.NegativeValueException => MpgClasses.NegativeValueException
  end.

End MpgCompare.

(** ** The programs of [11. Enumerations]

    String literals are kept as the source writes them. *)

Module Console.

(** What is written to [std::cout]. *)
Inductive item : Set :=
| Text (t : string)
| Int (n : Z)
| Endl.

(** [int]: the greatest value, and the two operations the programs use
    on counters. Signed overflow has no defined result. *)
Definition INT_MAX : Z := 2147483647.

Definition increment (n : Z) : option Z :=
  if (n <? INT_MAX)%Z then Some (n + 1)%Z else None.

Definition add (a b : Z) : option Z :=
  if (a + b <=? INT_MAX)%Z then Some (a + b)%Z else None.

End Console.

(** *** [Enumerations/ScopedEnums/main.cpp] *)

Module ScopedEnums.
Import Console.

(** [enum class Grocery_Item {Milk=350, Bread=250, Apple=132, Orange=100}]:
    the underlying type is [int], and a conversion [Grocery_Item(n)]
    yields a value of the type for every [int], enumerator or not. *)
Definition Grocery_Item : Set := Z.
Definition Milk : Grocery_Item := 350%Z.
Definition Bread : Grocery_Item := 250%Z.
Definition Apple : Grocery_Item := 132%Z.
Definition Orange : Grocery_Item := 100%Z.

(** [std::ostream &operator<<(std::ostream &os, Grocery_Item grocery_item)]:
    what it inserts. *)
Definition insert_Grocery_Item (grocery_item : Grocery_Item) : list item :=
  let value := grocery_item in
  (if (grocery_item =? Milk)%Z then [Text "Milk"]
   else if (grocery_item =? Bread)%Z then [Text "Bread"]
   else if (grocery_item =? Apple)%Z then [Text "Apple"]
   else if (grocery_item =? Orange)%Z then [Text "Orange"]
   else [Text "Invalid item"])
  ++ [Text " : "; Int value].

(** [bool is_valid_grocery_item(Grocery_Item grocery_item)] *)
Definition is_valid_grocery_item (grocery_item : Grocery_Item) : bool :=
  if (grocery_item =? Milk)%Z then true
  else if (grocery_item =? Bread)%Z then true
  else if (grocery_item =? Apple)%Z then true
  else if (grocery_item =? Orange)%Z then true
  else false.

(** The loop of [display_grocery_list]: the output so far and the two
    counters. *)
Fixpoint display_loop (grocery_list : list Grocery_Item)
    (out : list item) (invalid_item_count valid_item_count : Z) :
    option (list item * Z * Z) :=
  match grocery_list with
  | [] => Some (out, invalid_item_count, valid_item_count)
  | grocery_item :: rest =>
      let out := out ++ insert_Grocery_Item grocery_item ++ [Endl] in
      if is_valid_grocery_item grocery_item then
        v ← increment valid_item_count;
        display_loop rest out invalid_item_count v
      else
        i ← increment invalid_item_count;
        display_loop rest out i valid_item_count
  end.

(** [void display_grocery_list(const std::vector<Grocery_Item> &grocery_list)]:
    what it writes, when no counter overflows. *)
Definition display_grocery_list (grocery_list : list Grocery_Item) : option (list item) :=
  let out := [Text "Grocery List"; Text "\n=============================="; Endl] in
  '(out, invalid_item_count, valid_item_count) ← display_loop grocery_list out 0%Z 0%Z;
  total ← add valid_item_count invalid_item_count;
  Some (out ++ [Text "=============================="; Endl;
                Text "Valid items: "; Int valid_item_count; Endl;
                Text "Invalid items: "; Int invalid_item_count; Endl;
                Text "Total items: "; Int total; Endl]).

(** [void test1()] *)
Definition test1 : option (list item) :=
  let Helicopter := 1000%Z in
  let shopping_list := [] ++ [Apple] ++ [Milk] ++ [Orange] ++ [Helicopter] ++ [350%Z] in
  shown ← display_grocery_list shopping_list;
  Some ([Text "\n--- Test1 --------------------------\n"; Endl] ++ shown).

End ScopedEnums.

(** *** [UnscopedEnums/main.cpp], the part [main] runs *)

Module UnscopedEnums.
Import Console.

(** [enum State {Engine_Failure, Inclement_Weather, Nominal, Unknown}],
    by the values of its enumerators. *)
Definition State : Set := Z.
Definition Engine_Failure : State := 0%Z.
Definition Inclement_Weather : State := 1%Z.
Definition Nominal : State := 2%Z.
Definition Unknown : State := 3%Z.

(** [enum Sequence {Abort, Hold, Launch}]; the program only ever names
    its enumerators. *)
Inductive Sequence : Set := Abort | Hold | Launch.

(** [std::istream &operator>>(std::istream &is, State &state)], given
    the number [user_input] that [is >> user_input] read: what it writes
    to [std::cout] and what it stores in [state]. *)
Definition extract_State (user_input : Z) : list item * State :=
  if (user_input =? Engine_Failure)%Z || (user_input =? Inclement_Weather)%Z
     || (user_input =? Nominal)%Z || (user_input =? Unknown)%Z
  then ([], user_input)
  else ([Text "User input is not a valid launch state."; Endl], Unknown).

(** [std::ostream &operator<<(std::ostream &os, const Sequence &sequence)] *)
Definition insert_Sequence (sequence : Sequence) : list item :=
  match sequence with
  | Abort => [Text "Abort"]
  | Hold => [Text "Hold"]
  | Launch => [Text "Launch"]
  end.

(** [void initiate(Sequence sequence)] *)
Definition initiate (sequence : Sequence) : list item :=
  [Text "Initiate "] ++ insert_Sequence sequence ++ [Text " sequence!"; Endl].

(** [void test3()]; a [state] that matches no [case] of its [switch]
    initiates nothing. *)
Definition test3 (user_input : Z) : list item :=
  let '(said, state) := extract_State user_input in
  [Text "\n--- Test3 --------------------------\n"; Endl; Text "Launch state: "]
  ++ said
  ++ (if (state =? Engine_Failure)%Z || (state =? Unknown)%Z then initiate Abort
      else if (state =? Inclement_Weather)%Z then initiate Hold
      else if (state =? Nominal)%Z then initiate Launch
      else []).

(** [int main()] *)
Definition main (user_input : Z) : list item * Z :=
  (test3 user_input ++ [Text "\n"], 0%Z).

End UnscopedEnums.

(** ** The program of [10. ShallowCopy/main.cpp] *)

Module ShallowCopy.
Import Console.

Definition loc := positive.

(** The free store of [int]s ([None]: allocated, no value yet) and the
    output. *)
Record state : Type := mkState {
  heap : gmap loc (option Z);
  cout : list item;
}.

(** [class Shallow { int *data; ... }] *)
Record Shallow : Set := mkShallow { data : loc }.

Definition write (t : list item) : M state unit :=
  modify (λ st, mkState (heap st) (cout st ++ t)).

(** [new int] *)
Definition new_int : M state loc :=
  st ← get;
  let l := fresh (dom (heap st)) in
  put (mkState (<[l := None]> (heap st)) (cout st));;
  mret l.

(** [*p = d] *)
Definition store (p : loc) (d : Z) : M state unit :=
  st ← get;
  match heap st !! p with
  | Some _ => put (mkState (<[p := Some d]> (heap st)) (cout st))
  | None => undefined InvalidPointer
  end.

(** [*p] read *)
Definition load (p : loc) : M state Z :=
  st ← get;
  match heap st !! p with
  | Some (Some v) => mret v
  | Some None => undefined IndeterminateRead
  | None => undefined InvalidPointer
  end.

(** [delete p] *)
Definition delete_int (p : loc) : M state unit :=
  st ← get;
  match heap st !! p with
  | Some _ => put (mkState (delete p (heap st)) (cout st))
  | None => undefined InvalidPointer
  end.

(** [Shallow::Shallow(int d) { data = new int; *data = d; }] *)
Definition Shallow_ctor (d : Z) : M state Shallow :=
  p ← new_int;
  store p d;;
  mret (mkShallow p).

(** [Shallow::Shallow(const Shallow &source) : data(source.data)
    { cout << "Copy constructor  - shallow copy" << endl; }] *)
Definition Shallow_copy (source : Shallow) : M state Shallow :=
  let this := mkShallow (data source) in
  write [Text "Copy constructor  - shallow copy"; Endl];;
  mret this.

(** [Shallow::~Shallow() { delete data; cout << "Destructor freeing data" << endl; }] *)
Definition Shallow_dtor (this : Shallow) : M state unit :=
  delete_int (data this);;
  write [Text "Destructor freeing data"; Endl].

(** [void set_data_value(int d) { *data = d; }] *)
Definition set_data_value (this : Shallow) (d : Z) : M state unit :=
  store (data this) d.

(** [int get_data_value() { return *data; }] *)
Definition get_data_value (this : Shallow) : M state Z :=
  load (data this).

(** [void display_shallow(Shallow s) { cout << s.get_data_value() << endl; }]:
    the parameter is made by the copy constructor and destroyed on
    return. *)
Definition display_shallow (argument : Shallow) : M state unit :=
  s ← Shallow_copy argument;
  v ← get_data_value s;
  write [Int v; Endl];;
  Shallow_dtor s.

(** [int main()]; at [return 0] the locals end, [obj2] before [obj1]. *)
Definition main : M state Z :=
  obj1 ← Shallow_ctor 100%Z;
  display_shallow obj1;;
  obj2 ← Shallow_copy obj1;
  set_data_value obj2 1000%Z;;
  Shallow_dtor obj2;;
  Shallow_dtor obj1;;
  mret 0%Z.

End ShallowCopy.

(** ** The file copies of [8. IO and Streams]

    A file is the sequence of its characters. What a program finds is
    the content of its input file, when that file can be opened, and
    whether its output file can be opened for writing. *)

Module Files.
Import Console.

Definition text : Set := list ascii.

Definition newline : ascii := "010"%char.

Record world : Set := mkWorld {
  input : option text;
  output_opens : bool;
}.

(** What a run leaves: the value [main] returns, the two streams, and
    the content of the output file ([None]: the file was not opened). *)
Record report : Set := mkReport {
  returned : Z;
  cout : list item;
  cerr : list item;
  written : option text;
}.

(** How a loop over the input ends in the model. *)
Inductive ended (A : Type) : Type :=
| Done (a : A)
| Overflow       (* an [int] counter passed [INT_MAX] *)
| OutOfFuel.     (* the loop bound of the model was hit *)
Global Arguments Done {A} a.
Global Arguments Overflow {A}.
Global Arguments OutOfFuel {A}.

(** The characters up to the next newline, and what follows it. *)
Fixpoint read_line (rest : text) : text * text :=
  match rest with
  | [] => ([], [])
  | c :: rest' =>
      if decide (c = newline) then ([], rest')
      else let '(line, rest'') := read_line rest' in (c :: line, rest'')
  end.

(** [std::getline(in_file, line)]: it fails when nothing is left to
    extract; otherwise it stores the characters up to the next newline
    or the end, and takes the newline away. *)
Definition getline (rest : text) : option (text * text) :=
  match rest with
  | [] => None
  | _ :: _ => Some (read_line rest)
  end.

(** The lines [getline] yields one after the other. *)
Fixpoint lines_from (current rest : text) : list text :=
  match rest with
  | [] => match current with [] => [] | _ :: _ => [current] end
  | c :: rest' =>
      if decide (c = newline) then current :: lines_from [] rest'
      else lines_from (current ++ [c]) rest'
  end.

Definition lines (content : text) : list text := lines_from [] content.

(** The newline a text lacks at its end: none for the empty text and for
    a text that ends with a newline. *)
Definition missing_newline (content : text) : text :=
  match last content with
  | None => []
  | Some c => if decide (c = newline) then [] else [newline]
  end.

(** The lines that are not empty. *)
Definition not_empty (ls : list text) : list text :=
  filter (λ line, line ≠ []) ls.

End Files.

(** *** [WriteFIle_2/main.cpp] *)

Module WriteFile.
Import Console Files.

(** [while (std::getline(in_file, line)) out_file << line << std::endl;] *)
Fixpoint copy_loop (fuel : nat) (rest : text) (out_file : text) : ended text :=
  match getline rest with
  | None => Done out_file
  | Some (line, rest') =>
      match fuel with
      | O => OutOfFuel
      | S fuel' => copy_loop fuel' rest' (out_file ++ line ++ [newline])
      end
  end.

(** [int main()]. Both streams are opened before either is tested, and
    opening the output stream empties the file. *)
Definition main (w : world) (fuel : nat) : ended report :=
  let in_file := input w in
  let out_file := if output_opens w then Some [] else None in
  match in_file with
  | None => Done (mkReport 1 [] [Text "Error opening input file"; Endl] out_file)
  | Some content =>
      match out_file with
      | None => Done (mkReport 1 [] [Text "Error opening output file"; Endl] None)
      | Some empty =>
          match copy_loop fuel content empty with
          | Done copied => Done (mkReport 0 [Text "File copied"; Endl] [] (Some copied))
          | Overflow => Overflow
          | OutOfFuel => OutOfFuel
          end
      end
  end.

End WriteFile.

(** *** [Challenge_4_Solution/main.cpp] *)

Module Challenge4.
Import Console Files.

Section Program.
(** The digits [operator<<] writes for an [int]. *)
Context (digits : Z → text).

(** [std::setw(7) << std::left]: filled with blanks on the right up to
    seven characters. *)
Definition setw7_left (t : text) : text :=
  t ++ replicate (7 - length t) " "%char.

(** The loop of [main]. When the output stream is not open, what is
    written to it is lost. *)
Fixpoint number_loop (fuel : nat) (rest : text) (out_file : option text)
    (line_number : Z) : ended (option text * Z) :=
  match getline rest with
  | None => Done (out_file, line_number)
  | Some (line, rest') =>
      match fuel with
      | O => OutOfFuel
      | S fuel' =>
          match line with
          | [] => number_loop fuel' rest' ((λ o, o ++ [newline]) <$> out_file) line_number
          | _ :: _ =>
              match increment line_number with
              | None => Overflow
              | Some line_number =>
                  number_loop fuel' rest'
                    ((λ o, o ++ setw7_left (digits line_number) ++ line ++ [newline])
                       <$> out_file)
                    line_number
              end
          end
      end
  end.

(** [int main()]. The test of the input stream is written twice; the
    output stream is not tested. *)
Definition main (w : world) (fuel : nat) : ended report :=
  let in_file := input w in
  let out_file := if output_opens w then Some [] else None in
  match in_file with
  | None => Done (mkReport 1 [] [Text "Error opening input file"; Endl] out_file)
  | Some content =>
      match number_loop fuel content out_file 0%Z with
      | Done (out_file, _) =>
          Done (mkReport 0 [Text "\nCopy complete"; Endl] [] out_file)
      | Overflow => Overflow
      | OutOfFuel => OutOfFuel
      end
  end.

(** The numbered copy of a list of lines, the last number given being
    [n]. *)
Fixpoint numbered (n : Z) (ls : list text) : text :=
  match ls with
  | [] => []
  | [] :: ls' => newline :: numbered n ls'
  | line :: ls' =>
      setw7_left (digits (n + 1)%Z) ++ line ++ newline :: numbered (n + 1)%Z ls'
  end.

End Program.
End Challenge4.
(** * Properties *)

(** ** The monad of statements *)

Module CppFacts.

Lemma run_ret {S A} (a : A) (s : S) : run (mret a) s = Returns a s.
Proof. reflexivity. Qed.

Lemma run_bind {S A B} (m : M S A) (f : A → M S B) (s : S) :
  run (m ≫= f) s =
  match run m s with
  | Returns a s' => run (f a) s'
  | Throws e s' => Throws e s'
  | Undefined u s' => Undefined u s'
  | OutOfFuel => OutOfFuel
  end.
Proof. reflexivity. Qed.

Lemma run_bind_returns {S A B} (m : M S A) (f : A → M S B) s a s' :
  run m s = Returns a s' → run (m ≫= f) s = run (f a) s'.
Proof. intros H. rewrite run_bind, H. reflexivity. Qed.

Lemma run_bind_undefined {S A B} (m : M S A) (f : A → M S B) s u s' :
  run m s = Undefined u s' → run (m ≫= f) s = Undefined u s'.
Proof. intros H. rewrite run_bind, H. reflexivity. Qed.

End CppFacts.

Import CppFacts.

(** *** How the primitive statements run *)

Module LinkedListFacts.
Import LinkedList.

Section Facts.
Context {T : Type}.
Implicit Types (s : state T) (h : gmap loc (ListItem T)) (n : ListItem T).
Implicit Types (l : loc) (p q : pointer) (v : T).

Lemma run_deref s l n :
  heap s !! l = Some n → run (deref (Some l)) s = Returns (l, n) s.
Proof. intros H. unfold deref, run, mbind, M_bind, get. rewrite H. reflexivity. Qed.

Lemma run_store f s l n :
  heap s !! l = Some n →
  run (store f (Some l)) s = Returns tt (with_heap (<[l := f n]> (heap s)) s).
Proof.
  intros H. unfold store. rewrite (run_bind_returns _ _ _ _ _ (run_deref _ _ _ H)).
  reflexivity.
Qed.

Lemma run_load_next s l n q :
  heap s !! l = Some n → next n = Holds q →
  run (load_next (Some l)) s = Returns q s.
Proof.
  intros H Hn. unfold load_next.
  rewrite (run_bind_returns _ _ _ _ _ (run_deref _ _ _ H)). simpl. rewrite Hn.
  reflexivity.
Qed.

Lemma run_load_next_indeterminate s l n :
  heap s !! l = Some n → next n = Indeterminate →
  run (load_next (Some l)) s = Undefined IndeterminateRead s.
Proof.
  intros H Hn. unfold load_next.
  rewrite (run_bind_returns _ _ _ _ _ (run_deref _ _ _ H)). simpl. rewrite Hn.
  reflexivity.
Qed.

Lemma run_load_prev s l n q :
  heap s !! l = Some n → prev n = Holds q →
  run (load_prev (Some l)) s = Returns q s.
Proof.
  intros H Hn. unfold load_prev.
  rewrite (run_bind_returns _ _ _ _ _ (run_deref _ _ _ H)). simpl. rewrite Hn.
  reflexivity.
Qed.

Lemma run_load_data s l n v :
  heap s !! l = Some n → data n = Holds v →
  run (load_data (Some l)) s = Returns v s.
Proof.
  intros H Hn. unfold load_data.
  rewrite (run_bind_returns _ _ _ _ _ (run_deref _ _ _ H)). simpl. rewrite Hn.
  reflexivity.
Qed.

(** [push] on a list whose [head] is [NULL]: one node is allocated, only
    its [data] is assigned, and it becomes both [head] and [tail]. *)
Lemma run_push_first v h t o :
  let l := fresh (dom h) in
  run (push v) (mkState h (mkList NULL t) o) =
  Returns tt (mkState (<[l := mkListItem Indeterminate Indeterminate (Holds v)]> h)
                      (mkList (Some l) (Some l)) o).
Proof.
  intros l. unfold push, new_ListItem.
  unfold run, mbind, M_bind, get, put, mret, M_ret; simpl.
  fold l. unfold store_data, store, deref, mbind, M_bind, get; simpl.
  rewrite lookup_insert_eq. simpl.
  unfold with_heap; simpl. rewrite insert_insert_eq. reflexivity.
Qed.

(** [push] on a list with a [head] and a [tail] node: the new node gets
    its [data] and its [prev], the old tail gets its [next]; the new
    node's [next] is assigned by nobody. *)
Lemma run_push_more v h hd t nt o :
  h !! t = Some nt →
  let l := fresh (dom h) in
  run (push v) (mkState h (mkList (Some hd) (Some t)) o) =
  Returns tt (mkState (<[t := set_next (Holds (Some l)) nt]>
                         (<[l := mkListItem Indeterminate (Holds (Some t)) (Holds v)]> h))
                      (mkList (Some hd) (Some l)) o).
Proof.
  intros Ht l.
  assert (Hl : h !! l = None).
  { apply not_elem_of_dom. apply is_fresh. }
  assert (Hne : l ≠ t) by (intros ->; congruence).
  unfold push, new_ListItem.
  unfold run, mbind, M_bind, get, put, mret, M_ret; simpl.
  fold l. unfold store_data, store_prev, store_next, store, deref, mbind, M_bind, get; simpl.
  rewrite lookup_insert_eq. simpl.
  unfold get_tail, mbind, M_bind, get, mret, M_ret; simpl.
  rewrite lookup_insert_eq. simpl.
  rewrite !insert_insert_eq.
  rewrite lookup_insert_ne by done. rewrite Ht. simpl.
  unfold with_heap, set_prev, set_data; simpl. reflexivity.
Qed.

Lemma run_List_ctor h (this0 : List) o :
  run List_ctor (mkState h this0 o) = Returns tt (declared h o).
Proof. reflexivity. Qed.

(** *** The invariant *)

Lemma chain_declared h o : chain [] [] (declared h o).
Proof. split; try done. constructor. Qed.

Lemma chain_lookup ls vs s i l :
  chain ls vs s → ls !! i = Some l → ∃ v, vs !! i = Some v ∧
    heap s !! l = Some (expected ls i v).
Proof.
  intros C Hl.
  destruct (lookup_lt_is_Some_2 vs i) as [v Hv].
  { rewrite <- (chain_length _ _ _ C). eapply lookup_lt_Some; eauto. }
  exists v; split; [done|]. eapply chain_nodes; eauto.
Qed.

Lemma expected_snoc_lt ls l' i v :
  S i < length ls → expected (ls ++ [l']) i v = expected ls i v.
Proof.
  intros Hi. unfold expected. f_equal.
  - rewrite lookup_app_l by lia. done.
  - destruct i as [|j]; [done|]. rewrite lookup_app_l by lia. done.
Qed.

(** One [push] keeps the invariant, extends the chain by one fresh
    node, prints nothing and leaves every node outside the chain
    alone. *)
Lemma push_chain ls vs s v :
  chain ls vs s →
  ∃ l s', run (push v) s = Returns tt s' ∧
          heap s !! l = None ∧
          chain (ls ++ [l]) (vs ++ [v]) s' ∧
          cout s' = cout s ∧
          (∀ l', l' ∉ ls → l' ≠ l → heap s' !! l' = heap s !! l').
Proof.
  intros C. destruct s as [h [hd tl] o].
  pose proof (chain_length _ _ _ C) as Hlen.
  pose proof (chain_nodup _ _ _ C) as Hnd.
  pose proof (chain_head _ _ _ C) as Hhd.
  pose proof (chain_tail _ _ _ C) as Htl. simpl in Hhd, Htl.
  set (l := fresh (dom h)).
  assert (Hl : h !! l = None) by (apply not_elem_of_dom, is_fresh).
  assert (Hnotin : l ∉ ls).
  { intros Hin. apply list_elem_of_lookup in Hin as [i Hi].
    destruct (chain_lookup _ _ _ _ _ C Hi) as (w & _ & Hw). simpl in Hw. congruence. }
  destruct ls as [|l0 ls0 _] using rev_ind.
  - (* the list was empty *)
    destruct vs; [|done]. simpl in Hhd, Htl. subst hd tl.
    exists l. eexists. split; [apply run_push_first|]. fold l.
    split; [done|]. split; [|split; [done|]].
    + split; simpl; try done.
      * apply NoDup_singleton.
      * intros [|i] l1 v1 H1 H2; simplify_eq/=.
        rewrite lookup_insert_eq. done.
    + intros l' _ Hne. simpl. rewrite lookup_insert_ne by done. done.
  - (* the list had a tail node [l0] *)
    destruct vs as [|v0 vs0 _] using rev_ind.
    { rewrite length_app in Hlen. simpl in Hlen. lia. }
    rewrite !length_app in Hlen. simpl in Hlen.
    assert (Hlen0 : length ls0 = length vs0) by lia.
    rewrite last_snoc in Htl. subst tl.
    assert (∃ lh, hd = Some lh) as [lh ->].
    { rewrite Hhd. destruct ls0; simpl; eauto. }
    assert (Hl0 : (ls0 ++ [l0]) !! length ls0 = Some l0).
    { rewrite lookup_app_r by lia. rewrite Nat.sub_diag. done. }
    assert (Hv0 : (vs0 ++ [v0]) !! length ls0 = Some v0).
    { rewrite lookup_app_r by lia. rewrite Hlen0, Nat.sub_diag. done. }
    pose proof (chain_nodes _ _ _ C _ _ _ Hl0 Hv0) as Hn0. simpl in Hn0.
    exists l. eexists. split; [apply (run_push_more _ _ _ _ _ _ Hn0)|]. fold l.
    split; [done|].
    assert (Hne : l ≠ l0) by (intros ->; congruence).
    split; [|split; [done|]].
    + split; simpl.
      * rewrite !length_app. simpl. lia.
      * apply NoDup_app. split; [done|]. split; [|apply NoDup_singleton].
        intros x Hx Hx'. apply list_elem_of_singleton in Hx'. subst x. done.
      * rewrite Hhd. destruct ls0; done.
      * rewrite last_snoc. done.
      * intros i l1 v1 H1 H2.
        assert (Hi : i < length ls0 ∨ i = length ls0 ∨ i = S (length ls0)).
        { apply lookup_lt_Some in H1. rewrite !length_app in H1. simpl in H1. lia. }
        destruct Hi as [Hi|[->| ->]].
        -- (* an inner node: untouched *)
           rewrite lookup_app_l in H1 by (rewrite length_app; simpl; lia).
           rewrite lookup_app_l in H2 by (rewrite length_app; simpl; lia).
           assert (l1 ≠ l0).
           { intros ->. rewrite lookup_app_l in H1 by lia.
             apply NoDup_app in Hnd as (_ & Hd & _).
             apply (Hd l0); [eapply list_elem_of_lookup_2; eauto|].
             apply list_elem_of_singleton. done. }
           assert (l1 ≠ l).
           { intros ->. apply Hnotin. eapply list_elem_of_lookup_2; eauto. }
           rewrite !lookup_insert_ne by done.
           pose proof (chain_nodes _ _ _ C _ _ _ H1 H2) as Hn1. simpl in Hn1.
           rewrite Hn1.
           rewrite (expected_snoc_lt (ls0 ++ [l0])) by (rewrite length_app; simpl; lia).
           done.
        -- (* the old tail: its [next] now points to the new node *)
           rewrite lookup_app_l in H1 by (rewrite length_app; simpl; lia).
           rewrite lookup_app_l in H2 by (rewrite length_app; simpl; lia).
           simplify_eq. rewrite lookup_insert_eq. f_equal.
           unfold set_next, expected; simpl. f_equal.
           ++ replace (S (length ls0)) with (length (ls0 ++ [l0]))
                by (rewrite length_app; simpl; lia).
              rewrite lookup_app_r by lia. rewrite Nat.sub_diag.
              done.
           ++ destruct (length ls0) as [|j] eqn:Hj; [done|].
              rewrite (lookup_app_l (ls0 ++ [l0])); [done|].
              rewrite length_app; simpl; lia.
        -- (* the new node *)
           replace (S (length ls0)) with (length (ls0 ++ [l0])) in H1, H2 |- *
                by (rewrite length_app; simpl; lia).
           rewrite lookup_app_r in H1 by lia. rewrite Nat.sub_diag in H1.
           assert (length (ls0 ++ [l0]) = length (vs0 ++ [v0]))
             by (rewrite !length_app; simpl; lia).
           rewrite H in H2. rewrite lookup_app_r in H2 by lia.
           rewrite Nat.sub_diag in H2. simplify_eq/=.
           rewrite lookup_insert_ne by done. rewrite lookup_insert_eq. f_equal.
           unfold expected. f_equal.
           ++ rewrite lookup_ge_None_2; [done|]. rewrite H. rewrite !length_app; simpl; lia.
           ++ rewrite length_app; simpl. rewrite Nat.add_1_r.
              rewrite lookup_app_l by (rewrite length_app; simpl; lia). rewrite Hl0. done.
    + intros l' Hl' Hne'. simpl.
      assert (l' ≠ l0).
      { intros ->. apply Hl'. apply elem_of_app. right. apply list_elem_of_singleton. done. }
      rewrite !lookup_insert_ne by done. done.
Qed.

Lemma chain_with_cout ls vs s o : chain ls vs s → chain ls vs (with_cout o s).
Proof. intros [? ? ? ? ?]. split; done. Qed.

(** Any number of pushes: the chain grows by as many fresh nodes, in
    order, and nothing else in the free store changes. *)
Lemma pushes_chain ws : ∀ ls vs s,
  chain ls vs s →
  ∃ ls' s', run (pushes ws) s = Returns tt s' ∧
            chain (ls ++ ls') (vs ++ ws) s' ∧
            length ls' = length ws ∧
            cout s' = cout s ∧
            (∀ l, l ∈ ls' → heap s !! l = None) ∧
            (∀ l, l ∉ ls ++ ls' → heap s' !! l = heap s !! l).
Proof.
  induction ws as [|w ws IH]; intros ls vs s C.
  - exists [], s. rewrite !app_nil_r.
    split; [done|]. split; [done|]. split; [done|]. split; [done|].
    split; [|done]. intros l Hl. by apply elem_of_nil in Hl.
  - destruct (push_chain _ _ _ w C) as (l & s1 & Hrun & Hfresh & C1 & Ho1 & Hframe1).
    destruct (IH _ _ _ C1) as (ls' & s2 & Hrun2 & C2 & Hlen2 & Ho2 & Hnew2 & Hframe2).
    exists (l :: ls'), s2.
    rewrite <- !app_assoc in C2. simpl in C2.
    pose proof (chain_nodup _ _ _ C2) as Hnd.
    split.
    { simpl. rewrite (run_bind_returns _ _ _ _ _ Hrun). done. }
    split; [done|]. split; [simpl; lia|]. split; [congruence|]. split.
    + intros l' Hl'. apply elem_of_cons in Hl' as [->|Hl']; [done|].
      assert (H1 : l' ∉ ls).
      { intros Hin. apply NoDup_app in Hnd as (_ & Hd & _).
        apply (Hd l' Hin). by right. }
      assert (H2 : l' ≠ l).
      { intros ->. apply NoDup_app in Hnd as (_ & _ & Hd).
        apply NoDup_cons in Hd as [Hd _]. done. }
      rewrite <- (Hframe1 l' H1 H2). by apply Hnew2.
    + intros l' Hl'.
      assert (H1 : l' ∉ ls).
      { intros Hin. apply Hl'. apply elem_of_app. by left. }
      assert (H2 : l' ≠ l).
      { intros ->. apply Hl'. apply elem_of_app. right. by left. }
      assert (H3 : l' ∉ (ls ++ [l]) ++ ls') by (by rewrite <- app_assoc).
      rewrite (Hframe2 l' H3). by apply Hframe1.
Qed.

(** *** Walking the links of a chain *)

Lemma walk_next_chain ls vs s k : ∀ i l l',
  chain ls vs s → ls !! i = Some l → ls !! (i + k) = Some l' →
  run (walk_next k (Some l)) s = Returns (Some l') s.
Proof.
  induction k as [|k IH]; intros i l l' C Hl Hl'.
  - rewrite Nat.add_0_r in Hl'. simplify_eq. done.
  - destruct (chain_lookup _ _ _ _ _ C Hl) as (v & _ & Hn).
    destruct (lookup_lt_is_Some_2 ls (S i)) as [l1 Hl1].
    { apply lookup_lt_Some in Hl'. lia. }
    simpl. rewrite (run_bind_returns _ _ _ (Some l1) s).
    + apply (IH (S i)); try done. by replace (S i + k) with (i + S k) by lia.
    + eapply run_load_next; [done|]. simpl. by rewrite Hl1.
Qed.

Lemma walk_next_off_the_end ls vs s k : ∀ i l,
  chain ls vs s → ls !! i = Some l → i + k = length ls →
  run (walk_next k (Some l)) s = Undefined IndeterminateRead s.
Proof.
  induction k as [|k IH]; intros i l C Hl Hk.
  - apply lookup_lt_Some in Hl. lia.
  - destruct (chain_lookup _ _ _ _ _ C Hl) as (v & _ & Hn).
    destruct (ls !! S i) as [l1|] eqn:Hl1.
    + simpl. rewrite (run_bind_returns _ _ _ (Some l1) s).
      * apply (IH (S i)); try done. lia.
      * eapply run_load_next; [done|]. simpl. by rewrite Hl1.
    + simpl. apply run_bind_undefined.
      eapply run_load_next_indeterminate; [done|]. simpl. by rewrite Hl1.
Qed.

Lemma walk_prev_chain ls vs s k : ∀ i l l',
  chain ls vs s → ls !! (i + k) = Some l → ls !! i = Some l' →
  run (walk_prev k (Some l)) s = Returns (Some l') s.
Proof.
  induction k as [|k IH]; intros i l l' C Hl Hl'.
  - rewrite Nat.add_0_r in Hl. simplify_eq. done.
  - destruct (chain_lookup _ _ _ _ _ C Hl) as (v & _ & Hn).
    destruct (lookup_lt_is_Some_2 ls (i + k)) as [l1 Hl1].
    { apply lookup_lt_Some in Hl. lia. }
    simpl. rewrite (run_bind_returns _ _ _ (Some l1) s).
    + by apply (IH i).
    + eapply run_load_prev; [done|].
      replace (i + S k) with (S (i + k)) by lia. simpl. by rewrite Hl1.
Qed.

(** The loop of [display], entered at position [i] of a chain: it
    prints the values from [i] on, in order, changes neither a node
    nor the list object, and then reads the [next] of the last node,
    which nobody assigned. *)
Lemma display_loop_chain ls vs m : ∀ s i l extra,
  chain ls vs s → ls !! i = Some l → length ls - i = m →
  run (display_loop (m + extra) (Some l)) s =
  Undefined IndeterminateRead (with_cout (cout s ++ drop i vs) s).
Proof.
  induction m as [|m IH]; intros s i l extra C Hl Hm.
  - apply lookup_lt_Some in Hl. lia.
  - destruct (chain_lookup _ _ _ _ _ C Hl) as (v & Hv & Hn).
    rewrite (drop_S _ _ _ Hv).
    simpl. rewrite (run_bind_returns _ _ _ v s).
    2:{ eapply run_load_data; done. }
    rewrite run_bind. simpl.
    destruct (ls !! S i) as [l1|] eqn:Hl1.
    + rewrite (run_bind_returns _ _ _ (Some l1) (with_cout (cout s ++ [v]) s)).
      2:{ eapply run_load_next; [done|]. simpl. by rewrite Hl1. }
      rewrite (IH _ (S i) l1); [|by apply chain_with_cout|done|lia].
      simpl. unfold with_cout; simpl. by rewrite <- app_assoc.
    + rewrite (run_bind_undefined _ _ _ IndeterminateRead
                 (with_cout (cout s ++ [v]) s)).
      2:{ eapply run_load_next_indeterminate; [done|]. simpl. by rewrite Hl1. }
      rewrite drop_ge; [done|]. apply lookup_ge_None in Hl1.
      rewrite <- (chain_length _ _ _ C). done.
Qed.

Lemma display_empty s fuel :
  head (this s) = NULL → run (display fuel) s = Returns tt s.
Proof.
  intros H. unfold display, get_head, run, mbind, M_bind, get, mret, M_ret.
  rewrite H. by destruct fuel.
Qed.

Lemma display_chain l ls vs s extra :
  chain (l :: ls) vs s →
  run (display (length vs + extra)) s =
  Undefined IndeterminateRead (with_cout (cout s ++ vs) s).
Proof.
  intros C. pose proof (chain_head _ _ _ C) as Hh. simpl in Hh.
  unfold display. rewrite (run_bind_returns _ _ _ (Some l) s).
  2:{ unfold get_head, run, mbind, M_bind, get, mret, M_ret. by rewrite Hh. }
  rewrite <- (chain_length _ _ _ C).
  rewrite (display_loop_chain _ _ _ _ 0 l extra C); [done|done|lia].
Qed.

Lemma pushes_declared h o vs :
  ∃ ls s, run (pushes vs) (declared h o) = Returns tt s ∧
          chain ls vs s ∧ cout s = o ∧
          Forall (λ l, h !! l = None ∧ is_Some (heap s !! l)) ls.
Proof.
  destruct (pushes_chain vs [] [] (declared h o) (chain_declared h o))
    as (ls & s & Hrun & C & _ & Ho & Hnew & _).
  simpl in C. exists ls, s. split; [done|]. split; [done|]. split; [done|].
  apply Forall_forall. intros l Hl. split; [by apply Hnew|].
  apply list_elem_of_lookup in Hl as [i Hi].
  destruct (chain_lookup _ _ _ _ _ C Hi) as (v & _ & Hn). eauto.
Qed.

Lemma chain_head_node l ls vs s :
  chain (l :: ls) vs s →
  head (this s) = Some l ∧ ∃ n, heap s !! l = Some n ∧ prev n = Indeterminate.
Proof.
  intros C. split; [apply (chain_head _ _ _ C)|].
  destruct (chain_lookup _ _ _ 0 l C eq_refl) as (v & _ & Hn). eauto.
Qed.

Lemma chain_tail_node l ls vs s :
  chain (l :: ls) vs s →
  ∃ tl n, (l :: ls) !! length ls = Some tl ∧ tail (this s) = Some tl ∧
          heap s !! tl = Some n ∧ next n = Indeterminate.
Proof.
  intros C. destruct (lookup_lt_is_Some_2 (l :: ls) (length ls)) as [tl Htl].
  { simpl. lia. }
  destruct (chain_lookup _ _ _ _ _ C Htl) as (v & _ & Hn).
  exists tl, (expected (l :: ls) (length ls) v).
  split; [done|]. split.
  - rewrite (chain_tail _ _ _ C), last_lookup. done.
  - split; [done|]. simpl. rewrite lookup_ge_None_2; done.
Qed.

(** C9. After any non-empty sequence of pushes on a new list the
    [prev] of the head node and the [next] of the tail node are still
    unassigned: the first [push] assigns only [data] of the node it
    allocates, a later [push] assigns [data] and [prev] of its new
    node and [next] of the old tail, and nothing else. [display]
    therefore prints every value in order and then, where its loop
    tests [current != NULL] after the last node, reads a [next] that
    was never assigned: it meets no null terminator. *)
Theorem push_leaves_end_links_unassigned h o v vs w extra :
  ∃ s hd tl nh nt,
    run (pushes (v :: vs)) (declared h o) = Returns tt s ∧
    head (this s) = Some hd ∧ tail (this s) = Some tl ∧
    heap s !! hd = Some nh ∧ heap s !! tl = Some nt ∧
    prev nh = Indeterminate ∧ next nt = Indeterminate ∧
    run (push w) (declared h o) =
      Returns tt
        (mkState (<[fresh (dom h) := mkListItem Indeterminate Indeterminate (Holds w)]> h)
                 (mkList (Some (fresh (dom h))) (Some (fresh (dom h)))) o) ∧
    run (push w) s =
      Returns tt
        (mkState (<[tl := set_next (Holds (Some (fresh (dom (heap s))))) nt]>
                    (<[fresh (dom (heap s)) :=
                         mkListItem Indeterminate (Holds (Some tl)) (Holds w)]> (heap s)))
                 (mkList (Some hd) (Some (fresh (dom (heap s))))) (cout s)) ∧
    run (display (length (v :: vs) + extra)) s =
      Undefined IndeterminateRead (with_cout (o ++ v :: vs) s).
Proof.
  destruct (pushes_declared h o (v :: vs)) as (ls & s & Hrun & C & Ho & _).
  destruct ls as [|l ls]; [by pose proof (chain_length _ _ _ C)|].
  destruct (chain_head_node _ _ _ _ C) as (Hhd & nh & Hnh & Hprev).
  destruct (chain_tail_node _ _ _ _ C) as (tl & nt & _ & Htl & Hnt & Hnext).
  exists s, l, tl, nh, nt.
  split; [done|]. split; [done|]. split; [done|]. split; [done|].
  split; [done|]. split; [done|]. split; [done|].
  split; [apply run_push_first|]. split.
  - destruct s as [hs [hd' tl'] os]. simpl in *. subst hd' tl'.
    by apply run_push_more.
  - rewrite <- Ho. by eapply display_chain.
Qed.

(** C2. The list built by pushing [a], [b], [c]: [display] prints
    [a], [b], [c] in that order and changes neither a node nor the
    list object, but it does not stop after [c]: it goes on to read
    the [next] of the last node, which [push] never assigned, so the
    run ends in undefined behaviour instead of returning. *)
Theorem display_three_runs_past_the_last_node h o a b c extra :
  ∃ s, run (pushes [a; b; c]) (declared h o) = Returns tt s ∧
       run (display (3 + extra)) s =
         Undefined IndeterminateRead (with_cout (o ++ [a; b; c]) s).
Proof.
  destruct (pushes_declared h o [a; b; c]) as (ls & s & Hrun & C & Ho & _).
  destruct ls as [|l ls]; [by pose proof (chain_length _ _ _ C)|].
  exists s. split; [done|]. rewrite <- Ho.
  apply (display_chain _ _ _ _ extra C).
Qed.

(** C3, as amended. A new list that received the pushes [vs]: when
    [vs] is empty, [head] and [tail] are both [NULL]; otherwise
    [length vs - 1] successor links lead from [head] to [tail] and as
    many back links lead from [tail] to [head]. *)
Theorem head_and_tail_are_linked h o vs :
  ∃ s, run (pushes vs) (declared h o) = Returns tt s ∧
       match vs with
       | [] => head (this s) = NULL ∧ tail (this s) = NULL
       | _ :: _ => links_reach_in (length vs - 1) s
       end.
Proof.
  destruct (pushes_declared h o vs) as (ls & s & Hrun & C & _ & _).
  exists s. split; [done|].
  pose proof (chain_length _ _ _ C) as Hlen.
  destruct vs as [|v vs].
  - destruct ls; [|done].
    split; [apply (chain_head _ _ _ C)|apply (chain_tail _ _ _ C)].
  - destruct ls as [|l ls]; [done|].
    destruct (chain_head_node _ _ _ _ C) as (Hhd & _).
    destruct (chain_tail_node _ _ _ _ C) as (tl & nt & Hlast & Htl & _).
    simpl in Hlen. replace (length (v :: vs) - 1) with (length ls) by (simpl; lia).
    exists l, tl. split; [done|]. split; [done|]. split.
    + by apply (walk_next_chain _ _ _ _ 0 l tl C).
    + by apply (walk_prev_chain _ _ _ _ 0 tl l C).
Qed.

(** C8, as amended. A list that is declared, receives the pushes [vs]
    and goes out of scope: its teardown releases no node and leaves the
    free store as the last push left it. All [length vs] nodes that the
    pushes allocated, pairwise distinct and new with respect to the free
    store [h] found at the start, are still allocated afterwards, each
    holding its value and links. *)
Theorem teardown_releases_no_node h (this0 : List) o vs :
  ∃ s ls, run (scope vs) (mkState h this0 o) = Returns tt s ∧
          run (pushes vs) (declared h o) = Returns tt s ∧
          chain ls vs s ∧
          length ls = length vs ∧ NoDup ls ∧
          Forall (λ l, h !! l = None ∧ is_Some (heap s !! l)) ls.
Proof.
  destruct (pushes_declared h o vs) as (ls & s & Hrun & C & Ho & Hall).
  exists s, ls. split.
  { unfold scope. rewrite (run_bind_returns _ _ _ _ _ (run_List_ctor h this0 o)).
    rewrite (run_bind_returns _ _ _ _ _ Hrun). done. }
  split; [done|]. split; [done|].
  split; [apply (chain_length _ _ _ C)|]. split; [apply (chain_nodup _ _ _ C)|done].
Qed.

End Facts.

(** The program itself: [main] prints its three strings and then reads
    the unassigned [next] of the node of the third. *)
Lemma main_runs_past_the_last_node extra :
  ∃ s, run (main (3 + extra)) start = Undefined IndeterminateRead s ∧
       cout s = ["Ave"; "Emperor"; "Marcus Aurelius!"]%string.
Proof. eexists. split; [vm_compute; reflexivity|reflexivity]. Qed.

(** C3, as the specification words it, fails on a list of one element:
    its size is 1 and its head is its tail, and one successor link from
    the head does not lead to the tail; it is the link nobody assigned. *)
Lemma size_links_miss_the_tail :
  ∃ s, run (pushes ["Ave"%string]) start = Returns tt s ∧
       head (this s) = Some 1%positive ∧ tail (this s) = Some 1%positive ∧
       run (walk_next (length ["Ave"%string]) (Some 1%positive)) s
         = Undefined IndeterminateRead s ∧
       ¬ links_reach_in (length ["Ave"%string]) s.
Proof.
  eexists. split; [vm_compute; reflexivity|].
  split; [reflexivity|]. split; [reflexivity|]. split; [reflexivity|].
  intros (hd & tl & Hhd & Htl & Hn & _).
  injection Hhd as <-. injection Htl as <-. discriminate Hn.
Qed.

(** C8, as the specification words it, fails on the list of [main]:
    after the list went out of scope its three nodes are all still in
    the free store. *)
Lemma teardown_leaves_the_nodes :
  ∃ s, run (scope ["Ave"; "Emperor"; "Marcus Aurelius!"]%string) start = Returns tt s ∧
       dom (heap s) = {[1; 2; 3]}%positive ∧
       heap s !! 1%positive
         = Some (mkListItem (Holds (Some 2%positive)) Indeterminate (Holds "Ave"%string)) ∧
       ¬ all_released [1; 2; 3]%positive s.
Proof.
  eexists. split; [vm_compute; reflexivity|].
  split; [|split; [reflexivity|]].
  - vm_compute. reflexivity.
  - intros H. specialize (H 1%positive). 
    assert (Hin : 1%positive ∈ [1; 2; 3]%positive) by (by left).
    specialize (H Hin). discriminate H.
Qed.

End LinkedListFacts.

(** ** [std::stack] *)

Module StackFacts.
Import Stack.

(** *** The three containers are sequence containers *)

Lemma seq_pop_back_snoc {T} (l : list T) x : seq_pop_back (l ++ [x]) = Some l.
Proof.
  unfold seq_pop_back. destruct (l ++ [x]) eqn:E.
  - by destruct l.
  - rewrite <- E, removelast_last. done.
Qed.

Lemma seq_set_back_snoc {T} (l : list T) x y :
  seq_set_back y (l ++ [x]) = Some (l ++ [y]).
Proof.
  unfold seq_set_back. destruct (l ++ [x]) eqn:E.
  - by destruct l.
  - rewrite <- E, removelast_last. done.
Qed.

Local Arguments seq_pop_back : simpl never.
Local Arguments seq_set_back : simpl never.

Global Instance vector_sequence : SequenceContainer vector.
Proof.
  split; intros T; unfold elements, vector_elements; simpl; try done.
  - intros [l]; simpl. by destruct l.
  - intros x [l]; simpl. by destruct (seq_set_back x l).
  - intros [l]; simpl. by destruct (seq_pop_back l).
Qed.

Global Instance stdlist_sequence : SequenceContainer stdlist.
Proof.
  split; intros T; unfold elements, stdlist_elements; simpl; try done.
  - intros [l]; simpl. destruct l as [|x l]; [done|]. simpl.
    rewrite bool_decide_eq_false_2; [done|]. by destruct (rev l).
  - intros [l]; simpl. by rewrite length_rev.
  - intros [l]; simpl. destruct l as [|x l]; [done|]. simpl. by rewrite last_snoc.
  - intros y [l]; simpl. destruct l as [|x l]; [done|]. simpl.
    by rewrite seq_set_back_snoc.
  - intros [l]; simpl. destruct l as [|x l]; [done|]. simpl.
    by rewrite seq_pop_back_snoc.
Qed.

Global Instance deque_sequence : SequenceContainer deque.
Proof.
  split; intros T; unfold elements, deque_elements; simpl; try done.
  - intros [f b]; simpl. destruct f as [|x f], b as [|y b]; simpl; try done.
    rewrite bool_decide_eq_false_2; [done|]. by destruct (rev b).
  - intros [f b]; simpl. by rewrite length_app, length_rev.
  - intros [f b]; simpl. destruct b as [|y b]; simpl.
    + by rewrite app_nil_r.
    + by rewrite app_assoc, last_snoc.
  - intros z [f b]; simpl. destruct b as [|y b]; simpl.
    + rewrite app_nil_r. destruct (seq_set_back z f); simpl; [|done].
      by rewrite app_nil_r.
    + by rewrite !app_assoc, seq_set_back_snoc.
  - intros x [f b]; simpl. by rewrite app_assoc.
  - intros [f b]; simpl. destruct b as [|y b]; simpl.
    + rewrite app_nil_r. destruct (seq_pop_back f); simpl; [|done].
      by rewrite app_nil_r.
    + by rewrite !app_assoc, seq_pop_back_snoc.
Qed.

Global Instance backing_sequence (B : Backing) : SequenceContainer (container_of B).
Proof. destruct B; apply _. Qed.

(** *** The adapter over any sequence container *)

Section Adapter.
Context {C : Type → Type} `{SequenceContainer C} {T : Type}.
Implicit Types (s : stack C T) (fr : frame C T) (l vs : list T) (x : T).

Lemma contents_new : contents (stack_new : stack C T) = [].
Proof. apply elements_new. Qed.

Lemma run_empty s : run empty s = Returns (bool_decide (contents s = [])) s.
Proof.
  unfold empty, run, mbind, M_bind, get, mret, M_ret.
  by rewrite empty_elements.
Qed.

Lemma run_size s : run size s = Returns (length (contents s)) s.
Proof.
  unfold size, run, mbind, M_bind, get, mret, M_ret.
  by rewrite size_elements.
Qed.

Lemma run_push x s :
  ∃ s', run (push x) s = Returns tt s' ∧ contents s' = contents s ++ [x].
Proof. eexists. split; [done|]. apply push_back_elements. Qed.

Lemma run_top_snoc s l x :
  contents s = l ++ [x] → run top s = Returns x s.
Proof.
  intros E. unfold top, run, mbind, M_bind, get.
  rewrite back_elements. fold (contents s). by rewrite E, last_snoc.
Qed.

Lemma run_top_nil s :
  contents s = [] → run top s = Undefined EmptyContainerAccess s.
Proof.
  intros E. unfold top, run, mbind, M_bind, get.
  rewrite back_elements. fold (contents s). by rewrite E.
Qed.

Lemma run_pop_snoc s l x :
  contents s = l ++ [x] → ∃ s', run pop s = Returns tt s' ∧ contents s' = l.
Proof.
  intros E. unfold pop, run, mbind, M_bind, get.
  pose proof (pop_back_elements T (c s)) as P. fold (contents s) in P.
  rewrite E, seq_pop_back_snoc in P.
  destruct (c_pop_back (c s)) as [c'|]; [|done].
  exists (mkStack c'). split; [done|]. by injection P.
Qed.

Lemma run_pop_nil s :
  contents s = [] → run pop s = Undefined EmptyContainerAccess s.
Proof.
  intros E. unfold pop, run, mbind, M_bind, get.
  pose proof (pop_back_elements T (c s)) as P. fold (contents s) in P.
  rewrite E in P. by destruct (c_pop_back (c s)).
Qed.

Lemma run_top_assign_snoc s l x v :
  contents s = l ++ [x] →
  ∃ s', run (top_assign v) s = Returns tt s' ∧ contents s' = l ++ [v].
Proof.
  intros E. unfold top_assign, run, mbind, M_bind, get.
  pose proof (set_back_elements T v (c s)) as P. fold (contents s) in P.
  rewrite E, seq_set_back_snoc in P.
  destruct (c_set_back v (c s)) as [c'|]; [|done].
  exists (mkStack c'). split; [done|]. by injection P.
Qed.

Lemma run_top_assign_nil s v :
  contents s = [] → run (top_assign v) s = Undefined EmptyContainerAccess s.
Proof.
  intros E. unfold top_assign, run, mbind, M_bind, get.
  pose proof (set_back_elements T v (c s)) as P. fold (contents s) in P.
  rewrite E in P. by destruct (c_set_back v (c s)).
Qed.

Lemma run_on_s {A} (m : M (stack C T) A) fr a s' :
  run m (s fr) = Returns a s' → run (on_s m) fr = Returns a (mkFrame s' (cout fr)).
Proof. unfold run, on_s. by intros ->. Qed.

Lemma run_on_s_undefined {A} (m : M (stack C T) A) fr u s' :
  run m (s fr) = Undefined u s' →
  run (on_s m) fr = Undefined u (mkFrame s' (cout fr)).
Proof. unfold run, on_s. by intros ->. Qed.

(** Pushes pile up on the top. *)
Lemma run_pushes vs : ∀ s,
  ∃ s', run (pushes vs) s = Returns tt s' ∧ contents s' = contents s ++ vs.
Proof.
  induction vs as [|v vs IH]; intros s.
  - exists s. by rewrite app_nil_r.
  - destruct (run_push v s) as (s1 & R1 & E1).
    destruct (IH s1) as (s2 & R2 & E2).
    exists s2. split.
    + simpl. by rewrite (run_bind_returns _ _ _ _ _ R1).
    + by rewrite E2, E1, <- app_assoc.
Qed.

(** Pops see the top part of the stack, last pushed first. *)
Lemma run_pops vs : ∀ s l,
  contents s = l ++ vs →
  ∃ s', run (pops (length vs)) s = Returns (rev vs) s' ∧ contents s' = l.
Proof.
  induction vs as [|v vs IH] using rev_ind; intros s l E.
  - exists s. rewrite app_nil_r in E. done.
  - rewrite app_assoc in E.
    destruct (run_pop_snoc _ _ _ E) as (s1 & R1 & E1).
    destruct (IH s1 l E1) as (s2 & R2 & E2).
    exists s2. split; [|done].
    rewrite length_app, Nat.add_comm, rev_app_distr. simpl.
    rewrite (run_bind_returns _ _ _ _ _ (run_top_snoc _ _ _ E)).
    rewrite (run_bind_returns _ _ _ _ _ R1).
    by rewrite (run_bind_returns _ _ _ _ _ R2).
Qed.

(** The loop [while (!s.empty()) { body }] for a body that takes the top
    element off and writes [out] of it: it runs once per element, from
    the top down, and stops at the empty stack. *)
Lemma run_while_not_empty (body : M (frame C T) unit) (out : T → list (token T)) :
  (∀ fr l x, contents (s fr) = l ++ [x] →
     ∃ s', contents s' = l ∧
           run body fr = Returns tt (mkFrame s' (cout fr ++ out x))) →
  ∀ l fr extra,
    contents (s fr) = l →
    ∃ s', contents s' = [] ∧
          run (while_not_empty (length l + extra) body) fr =
          Returns tt (mkFrame s' (cout fr ++ flat_map out (rev l))).
Proof.
  intros Hbody l. induction l as [|x l IH] using rev_ind; intros fr extra E.
  - exists (s fr). split; [done|].
    assert (R : run (on_s empty) fr = Returns true fr).
    { rewrite (run_on_s _ _ _ _ (run_empty _)), E. by destruct fr. }
    simpl. rewrite app_nil_r. destruct fr.
    destruct extra; simpl; by rewrite (run_bind_returns _ _ _ _ _ R).
  - assert (R : run (on_s empty) fr = Returns false fr).
    { rewrite (run_on_s _ _ _ _ (run_empty _)), E.
      rewrite bool_decide_eq_false_2; [by destruct fr|]. by destruct l. }
    destruct (Hbody _ _ _ E) as (s1 & E1 & R1).
    destruct (IH (mkFrame s1 (cout fr ++ out x)) extra E1) as (s2 & E2 & R2).
    exists s2. split; [done|].
    replace (length (l ++ [x]) + extra) with (S (length l + extra))
      by (rewrite length_app; simpl; lia).
    simpl.
    rewrite (run_bind_returns _ _ _ _ _ R).
    rewrite (run_bind_returns _ _ _ _ _ R1), R2. simpl.
    by rewrite rev_app_distr, <- app_assoc.
Qed.

Lemma run_display_body fr extra :
  ∃ s', contents s' = [] ∧
        run (display_body (length (contents (s fr)) + extra)) fr =
        Returns tt (mkFrame s' (cout fr ++ shown (rev (contents (s fr))))).
Proof.
  set (fr1 := mkFrame (s fr) (cout fr ++ [Str "[ "])).
  destruct (run_while_not_empty
              (elem ← on_s top; on_s pop;; write (Elem elem);; write (Str " "))
              (λ x, [Elem x; Str " "])) with (l := contents (s fr)) (fr := fr1)
              (extra := extra) as (s' & E' & R'); [|done|].
  - intros fr' l x E.
    destruct (run_pop_snoc _ _ _ E) as (s1 & R1 & E1).
    exists s1. split; [done|].
    rewrite (run_bind_returns _ _ _ _ _ (run_on_s _ _ _ _ (run_top_snoc _ _ _ E))).
    assert (R : run (on_s pop) fr' = Returns tt (mkFrame s1 (cout fr'))).
    { destruct fr'. by apply run_on_s. }
    destruct fr'; simpl in *.
    rewrite (run_bind_returns _ _ _ _ _ R).
    unfold run, mbind, M_bind, write, modify; simpl.
    by rewrite <- app_assoc.
  - exists s'. split; [done|].
    unfold display_body.
    rewrite (run_bind_returns _ _ _ tt fr1) by done.
    rewrite (run_bind_returns _ _ _ _ _ R').
    unfold run, mbind, M_bind, write, modify, shown; simpl.
    by rewrite <- !app_assoc.
Qed.

Lemma run_display fr extra :
  run (display (length (contents (s fr)) + extra)) fr =
  Returns tt (mkFrame (s fr) (cout fr ++ shown (rev (contents (s fr))))).
Proof.
  destruct (run_display_body fr extra) as (s' & _ & R).
  unfold run, display in *. destruct fr; simpl in *. by rewrite R.
Qed.

Lemma run_drain fr extra :
  ∃ s', contents s' = [] ∧
        run (drain (length (contents (s fr)) + extra)) fr =
        Returns tt (mkFrame s' (cout fr)).
Proof.
  destruct (run_while_not_empty (on_s pop) (λ _, []))
    with (l := contents (s fr)) (fr := fr) (extra := extra) as (s' & E' & R');
    [|done|].
  - intros fr' l x E.
    destruct (run_pop_snoc _ _ _ E) as (s1 & R1 & E1).
    exists s1. split; [done|]. rewrite app_nil_r. by apply run_on_s.
  - exists s'. split; [done|]. unfold drain. rewrite R'. f_equal. f_equal.
    assert (F : ∀ l : list T, flat_map (λ _ : T, @nil (token T)) l = []).
    { clear. induction l; simpl; auto. }
    by rewrite F, app_nil_r.
Qed.

Lemma run_drain_empty fr fuel :
  contents (s fr) = [] → run (drain fuel) fr = Returns tt fr.
Proof.
  intros E.
  assert (R : run (on_s empty) fr = Returns true fr).
  { rewrite (run_on_s _ _ _ _ (run_empty _)), E. by destruct fr. }
  unfold drain. destruct fuel; simpl; by rewrite (run_bind_returns _ _ _ _ _ R).
Qed.

End Adapter.

(** *** The claims about the stack *)

(** C1. Over each of the three backings: whatever a stack holds, pushing
    the values [vs] and then taking as many elements off the top (each
    read with [top] and removed with [pop]) shows the values of [vs] in
    reverse order and leaves the stack with what it held before. In
    particular, after [1, 2, 3, 4, 5] are pushed on a new stack, four
    such pops show [5, 4, 3, 2], [size()] is then [1] and [top()] is [1]. *)
Theorem pops_reverse_the_pushes (B : Backing) (T : Type)
    (s0 : stack (container_of B) T) (vs : list T) :
  (∃ s1 s2, run (pushes vs) s0 = Returns tt s1 ∧
            run (pops (length vs)) s1 = Returns (rev vs) s2 ∧
            contents s2 = contents s0) ∧
  (∃ s5 s1 : stack (container_of B) Z,
     run (pushes [1; 2; 3; 4; 5]%Z) stack_new = Returns tt s5 ∧
     run (pops 4) s5 = Returns [5; 4; 3; 2]%Z s1 ∧
     run size s1 = Returns 1 s1 ∧
     run top s1 = Returns 1%Z s1).
Proof.
  split.
  - destruct (run_pushes vs s0) as (s1 & R1 & E1).
    destruct (run_pops vs s1 (contents s0) E1) as (s2 & R2 & E2).
    by exists s1, s2.
  - destruct B; do 2 eexists; (split; [vm_compute; reflexivity|]);
      (split; [vm_compute; reflexivity|]); split; reflexivity.
Qed.

(** C4, as amended. Over each of the three backings, on a stack for
    which [empty()] holds, [pop()] raises no exception and has no defined
    result: it is a [pop_back] on an empty container. The loop
    [while (!s.empty()) s.pop();] of [main] leaves such a stack as it
    is, without a single [pop], and run on any stack it ends with the
    stack empty. *)
Theorem pop_is_guarded_by_empty (B : Backing) (T : Type)
    (s0 : stack (container_of B) T) (o : list (token T)) (fuel : nat)
    (fr : frame (container_of B) T) (extra : nat) :
  run empty s0 = Returns true s0 →
  run pop s0 = Undefined EmptyContainerAccess s0 ∧
  run (drain fuel) (mkFrame s0 o) = Returns tt (mkFrame s0 o) ∧
  ∃ s', run (drain (length (contents (s fr)) + extra)) fr =
          Returns tt (mkFrame s' (cout fr)) ∧
        run empty s' = Returns true s'.
Proof.
  intros E. rewrite run_empty in E.
  assert (E0 : contents s0 = []).
  { injection E as E. by apply bool_decide_eq_true in E. }
  split; [by apply run_pop_nil|]. split; [by apply run_drain_empty|].
  destruct (run_drain fr extra) as (s' & E' & R').
  exists s'. split; [done|]. by rewrite run_empty, E'.
Qed.

Lemma pop_is_guarded_by_empty_on_a_new_stack :
  run pop (stack_new : stack deque Z) = Undefined EmptyContainerAccess stack_new ∧
  run (drain 0) (mkFrame (stack_new : stack deque Z) []) = Returns tt (mkFrame stack_new []) ∧
  ∃ s', run (drain (length (contents (s (start Deque))) + 0)) (start Deque) =
          Returns tt (mkFrame s' (cout (start Deque))) ∧
        run empty s' = Returns true s'.
Proof.
  apply (pop_is_guarded_by_empty Deque Z stack_new [] 0 (start Deque) 0).
  reflexivity.
Defined.

(** C4, as the specification words it, fails on the stack [main]
    declares: it is empty, and [pop()] on it does not end in
    [EmptyStackError]. *)
Lemma pop_on_empty_throws_nothing :
  run empty (stack_new : stack deque Z) = Returns true stack_new ∧
  run pop (stack_new : stack deque Z) = Undefined EmptyContainerAccess stack_new ∧
  run pop (stack_new : stack deque Z) ≠ Throws EmptyStackError stack_new.
Proof. split; [reflexivity|]. split; [reflexivity|discriminate]. Qed.

(** C5, as amended. Over each of the three backings: on a stack that
    holds an element, [top()] yields the one pushed last and leaves the
    stack, hence its contents and its [size()], as they were; what it
    yields is a reference that can be assigned through, and [s.top() = v]
    puts [v] in the place of the top element, keeping the elements below
    and the size. On an empty stack neither use has a defined result, and
    no exception is raised. *)
Theorem top_reads_and_writes_the_top (B : Backing) (T : Type)
    (s0 : stack (container_of B) T) (v : T) :
  run size s0 = Returns (length (contents s0)) s0 ∧
  match last (contents s0) with
  | Some x =>
      run top s0 = Returns x s0 ∧
      ∃ s', run (top_assign v) s0 = Returns tt s' ∧
            contents s' = removelast (contents s0) ++ [v] ∧
            length (contents s') = length (contents s0)
  | None =>
      run empty s0 = Returns true s0 ∧
      run top s0 = Undefined EmptyContainerAccess s0 ∧
      run (top_assign v) s0 = Undefined EmptyContainerAccess s0
  end.
Proof.
  split; [apply run_size|].
  destruct (contents s0) as [|x l _] eqn:E using rev_ind.
  - simpl. split; [by rewrite run_empty, E|].
    split; [by apply run_top_nil|by apply run_top_assign_nil].
  - rewrite last_snoc. split; [by eapply run_top_snoc|].
    destruct (run_top_assign_snoc _ _ _ v E) as (s' & R' & E').
    exists s'. split; [done|]. rewrite removelast_last. split; [done|].
    rewrite E', !length_app. done.
Qed.

(** C5, as the specification words it, fails on the stack of [main]:
    after [s.push(10)], the statement [s.top() = 100] changes the
    contents from [10] to [100] through what [top()] returned; and on the
    empty stack [top()] does not end in [EmptyStackError]. *)
Lemma top_is_not_read_only :
  ∃ s10 s100 : stack deque Z,
    run (push 10%Z) stack_new = Returns tt s10 ∧
    run (top_assign 100%Z) s10 = Returns tt s100 ∧
    contents s10 = [10%Z] ∧ contents s100 = [100%Z] ∧
    contents s100 ≠ contents s10 ∧
    run top (stack_new : stack deque Z) = Undefined EmptyContainerAccess stack_new ∧
    run top (stack_new : stack deque Z) ≠ Throws EmptyStackError stack_new.
Proof.
  do 2 eexists. split; [reflexivity|]. split; [reflexivity|].
  split; [reflexivity|]. split; [reflexivity|]. split; [discriminate|].
  split; [reflexivity|discriminate].
Qed.

(** C6. Over each of the three backings: [display(s)] writes the
    elements of [s] from the top down between the brackets and returns
    with the caller's stack exactly as it was, although the loop in its
    body pops its own copy of the stack until that copy is empty. *)
Theorem display_leaves_the_stack_of_its_caller (B : Backing) (T : Type)
    (fr : frame (container_of B) T) (extra : nat) :
  run (display (length (contents (s fr)) + extra)) fr =
    Returns tt (mkFrame (s fr) (cout fr ++ shown (rev (contents (s fr))))) ∧
  ∃ s', run (display_body (length (contents (s fr)) + extra)) fr =
          Returns tt (mkFrame s' (cout fr ++ shown (rev (contents (s fr))))) ∧
        contents s' = [].
Proof.
  split; [apply run_display|].
  destruct (run_display_body fr extra) as (s' & E' & R'). by exists s'.
Qed.

(** What [main] prints, over each backing. *)
Lemma main_output (B : Backing) (extra : nat) :
  ∃ s', run (main B (6 + extra)) (start B) =
          Returns tt (mkFrame s'
            (shown [5; 4; 3; 2; 1]%Z ++ shown [100; 5; 4; 3; 2; 1]%Z ++
             shown [4; 3; 2; 1]%Z ++ shown [] ++
             [Str "Size: "; Num 0; Endl] ++ shown [10%Z] ++ shown [100%Z])) ∧
        contents s' = [100%Z].
Proof.
  destruct B, extra; eexists; (split; [vm_compute; reflexivity|reflexivity]).
Qed.

End StackFacts.

(** ** Shared and weak pointers *)

Module WeakPointersFacts.
Import WeakPointers.

(** Runs a straight-line piece of the program on a symbolic free store. *)
Ltac exec :=
  repeat (first
    [ progress (unfold run, mbind, M_bind, mret, M_ret, get, put, modify, undefined,
                 print, block_A, block_B, with_As, with_Bs; simpl)
    | rewrite lookup_insert_eq
    | rewrite insert_insert_eq
    | rewrite delete_insert_eq ]).

Ltac unfold_program :=
  unfold main, scenario, setup, resolve_a_ptr, lock_A, make_shared_A, make_shared_B,
    set_A, set_B, deref_A, deref_B, copy_shared_B, weak_from_shared_A,
    release_shared_A, release_shared_B, release_weak_A.

Lemma fresh_A (st : state) : As st !! fresh (dom (As st)) = None.
Proof. apply not_elem_of_dom, is_fresh. Qed.

Lemma fresh_B (st : state) : Bs st !! fresh (dom (Bs st)) = None.
Proof. apply not_elem_of_dom, is_fresh. Qed.

(** After the four statements of [main]: the [A] object has one owner
    (the local [a]) and one observer (the member of the [B] object); the
    [B] object has two owners (the local [b] and the member of the [A]
    object). *)
Lemma run_setup (st : state) :
  let la := fresh (dom (As st)) in
  let lb := fresh (dom (Bs st)) in
  run setup st =
  Returns (Some la, Some lb)
    (mkState (<[la := mkBlock 1 1 (Some (mkA (Some lb)))]> (As st))
             (<[lb := mkBlock 2 0 (Some (mkB (Some la)))]> (Bs st))
             (cout st ++ ["A Constructor"; "B Constructor"]%string)).
Proof.
  destruct st as [HA HB o]. unfold_program. exec.
  by rewrite <- app_assoc.
Qed.

(** C10. [main], run in any state of the free store: once [A] holds a
    shared pointer to [B] and [B] a weak pointer to [A], the end of the
    local [b] destroys nothing, the [B] object lives on through the
    member of [A]; the end of the local [a], the only owner of the [A]
    object, destroys the [A] object although [B] still observes it, and
    with it the [B] object. The output gains ["A Destructor"] and then
    ["B Destructor"], once each, and both allocations are gone. *)
Theorem main_destroys_A_then_B (st : state) :
  let la := fresh (dom (As st)) in
  let lb := fresh (dom (Bs st)) in
  ∃ st1 st2 st3,
    run setup st = Returns (Some la, Some lb) st1 ∧
    As st !! la = None ∧ Bs st !! lb = None ∧
    As st1 !! la = Some (mkBlock 1 1 (Some (mkA (Some lb)))) ∧
    Bs st1 !! lb = Some (mkBlock 2 0 (Some (mkB (Some la)))) ∧
    run (release_shared_B (Some lb)) st1 = Returns tt st2 ∧
    As st2 !! la = Some (mkBlock 1 1 (Some (mkA (Some lb)))) ∧
    Bs st2 !! lb = Some (mkBlock 1 0 (Some (mkB (Some la)))) ∧
    cout st2 = cout st1 ∧
    run (release_shared_A (Some la)) st2 = Returns tt st3 ∧
    cout st3 = cout st2 ++ ["A Destructor"; "B Destructor"]%string ∧
    As st3 = As st ∧ Bs st3 = Bs st ∧
    run main st = Returns tt st3 ∧
    cout st3 = cout st ++ ["A Constructor"; "B Constructor";
                           "A Destructor"; "B Destructor"]%string.
Proof.
  intros la lb. pose proof (fresh_A st) as FA. pose proof (fresh_B st) as FB.
  fold la in FA. fold lb in FB.
  destruct st as [HA HB o]; simpl in *.
  do 3 eexists. split; [apply run_setup|].
  split; [done|]. split; [done|]. simpl. fold la lb.
  split; [by rewrite lookup_insert_eq|]. split; [by rewrite lookup_insert_eq|].
  split; [unfold_program; exec; reflexivity|]. simpl.
  split; [by rewrite lookup_insert_eq|]. split; [by rewrite lookup_insert_eq|].
  split; [done|].
  split; [unfold_program; exec; reflexivity|]. simpl.
  split; [by rewrite <- app_assoc|].
  split; [by apply delete_id|]. split; [by apply delete_id|].
  split; [|by rewrite <- !app_assoc].
  unfold_program. exec. fold la lb. by rewrite <- !app_assoc.
Qed.

(** A pair made in any state of the free store, and the scenario of the
    specification run from that state. *)
Lemma resolve_of_a_new_pair_and_in_the_scenario (st : state) :
  let la := fresh (dom (As st)) in
  let lb := fresh (dom (Bs st)) in
  (∃ st1 st2 st3 st4,
     run make_shared_A st = Returns (Some la) st1 ∧
     run (weak_from_shared_A (Some la)) st1 = Returns (Some la) st2 ∧
     run (lock_A (Some la)) st2 = Returns (Some la) st3 ∧
     object <$> As st2 !! la = Some (Some (mkA None)) ∧
     object <$> As st3 !! la = Some (Some (mkA None)) ∧
     run (release_shared_A (Some la)) st2 = Returns tt st4 ∧
     object <$> As st4 !! la = Some None ∧
     run (lock_A (Some la)) st4 = Returns None st4) ∧
  (∃ st1 st2 st3 st4,
     run setup st = Returns (Some la, Some lb) st1 ∧
     run (resolve_a_ptr (Some lb)) st1 = Returns (Some la) st2 ∧
     object <$> As st2 !! la = Some (Some (mkA (Some lb))) ∧
     run (release_shared_A (Some la)) st1 = Returns tt st3 ∧
     cout st3 = cout st1 ++ ["A Destructor"%string] ∧
     object <$> As st3 !! la = Some None ∧
     object <$> Bs st3 !! lb = Some (Some (mkB (Some la))) ∧
     run (resolve_a_ptr (Some lb)) st3 = Returns None st3 ∧
     run (release_shared_B (Some lb)) st3 = Returns tt st4 ∧
     cout st4 = cout st3 ++ ["B Destructor"%string] ∧
     As st4 = As st ∧ Bs st4 = Bs st ∧
     run scenario st = Returns (Some la, Some la, None) st4).
Proof.
  intros la lb. pose proof (fresh_A st) as FA. pose proof (fresh_B st) as FB.
  fold la in FA. fold lb in FB.
  destruct st as [HA HB o]; simpl in *. split.
  - do 4 eexists.
    split; [unfold_program; exec; reflexivity|].
    split; [unfold_program; exec; reflexivity|]. fold la.
    split; [unfold_program; exec; reflexivity|]. simpl.
    split; [by rewrite lookup_insert_eq|]. split; [by rewrite lookup_insert_eq|].
    split; [unfold_program; exec; reflexivity|]. simpl.
    split; [by rewrite lookup_insert_eq|].
    unfold_program. exec. reflexivity.
  - do 4 eexists.
    split; [apply run_setup|]. simpl. fold la lb.
    split; [unfold_program; exec; reflexivity|]. simpl.
    split; [by rewrite lookup_insert_eq|].
    split; [unfold_program; exec; reflexivity|]. simpl.
    split; [done|].
    split; [by rewrite lookup_insert_eq|]. split; [by rewrite lookup_insert_eq|].
    split; [unfold_program; exec; reflexivity|].
    split; [unfold_program; exec; reflexivity|]. simpl.
    split; [done|].
    split; [by apply delete_id|]. split; [by apply delete_id|].
    unfold_program. exec. fold la lb. by rewrite <- !app_assoc.
Qed.


(** Any number of owners ending while one more is left only lowers the
    use count. *)
Lemma run_release_shared_A_times (k : nat) : ∀ HA HB o l m w ob,
  HA !! l = Some (mkBlock (S (k + m)) w ob) →
  run (release_shared_A_times k (Some l)) (mkState HA HB o) =
  Returns tt (mkState (<[l := mkBlock (S m) w ob]> HA) HB o).
Proof.
  induction k as [|k IH]; intros HA HB o l m w ob Hl.
  - simpl. by rewrite insert_id.
  - cbn [release_shared_A_times]. rewrite run_bind.
    assert (R : run (release_shared_A (Some l)) (mkState HA HB o) =
                Returns tt (mkState (<[l := mkBlock (S (k + m)) w ob]> HA) HB o)).
    { unfold_program. exec. rewrite Hl. reflexivity. }
    rewrite R. rewrite (IH _ _ _ l m w ob) by apply lookup_insert_eq.
    by rewrite insert_insert_eq.
Qed.

(** The last owner ending destroys the object, observers or not. *)
Lemma run_release_last_owner HA HB o l w a :
  HA !! l = Some (mkBlock 1 (S w) (Some a)) →
  shared_elsewhere (mkState HA HB o) (b_ptr a) →
  ∃ HB', run (release_shared_A (Some l)) (mkState HA HB o) =
         Returns tt (mkState (<[l := mkBlock 0 (S w) None]> HA) HB'
                       (o ++ ["A Destructor"%string])).
Proof.
  intros Hl Hb. destruct a as [[lb|]]; simpl in Hb.
  - destruct Hb as (n & wb & ob & Hlb). eexists.
    unfold_program. exec. rewrite Hl. exec. rewrite Hlb. exec. reflexivity.
  - eexists. unfold_program. exec. rewrite Hl. exec. reflexivity.
Qed.

(** All the owners ending, one after the other, destroys the object
    once, at the last of them. *)
Lemma run_release_all_owners (k : nat) : ∀ HA HB o l w a,
  HA !! l = Some (mkBlock (S k) (S w) (Some a)) →
  shared_elsewhere (mkState HA HB o) (b_ptr a) →
  ∃ HB', run (release_shared_A_times (S k) (Some l)) (mkState HA HB o) =
         Returns tt (mkState (<[l := mkBlock 0 (S w) None]> HA) HB'
                       (o ++ ["A Destructor"%string])).
Proof.
  induction k as [|k IH]; intros HA HB o l w a Hl Hb.
  - destruct (run_release_last_owner HA HB o l w a Hl Hb) as [HB' R].
    exists HB'. cbn [release_shared_A_times]. rewrite run_bind, R. reflexivity.
  - destruct (IH (<[l := mkBlock (S k) (S w) (Some a)]> HA) HB o l w a)
      as [HB' R]; [apply lookup_insert_eq|exact Hb|].
    exists HB'. change (release_shared_A_times (S (S k)) (Some l))
      with (release_shared_A (Some l);; release_shared_A_times (S k) (Some l)).
    rewrite run_bind.
    assert (R1 : run (release_shared_A (Some l)) (mkState HA HB o) =
                 Returns tt (mkState (<[l := mkBlock (S k) (S w) (Some a)]> HA) HB o)).
    { unfold_program. exec. rewrite Hl. reflexivity. }
    rewrite R1, R. by rewrite insert_insert_eq.
Qed.

(** [linked] is the state the four statements of [main] reach. *)
Lemma setup_reaches_linked :
  run setup start = Returns (Some 1%positive, Some 1%positive) linked.
Proof. reflexivity. Qed.

(** What [resolve] answers depends on the use count alone. *)
Lemma run_lock_A (st : state) (l : loc) (blk : block A) :
  As st !! l = Some blk →
  run (lock_A (Some l)) st =
  match use_count blk with
  | O => Returns None st
  | S n =>
      Returns (Some l)
        (with_As <[l := mkBlock (S (S n)) (weak_count blk) (object blk)]> st)
  end.
Proof.
  intros Hl. unfold_program. exec. rewrite Hl. by destruct (use_count blk).
Qed.

(** C7. Every weak reference, in every state of the free store,
    whatever the counts of the object [l0] it observes: [resolve]
    yields nothing exactly when no owner is left, whether or not the
    object is still there, and otherwise a handle to the very same
    object, which it leaves as it is, with one owner more. An object [l]
    with [k + m + 1] owners and an observer, whose member [b_ptr] is null or
    shares a [B] object that has another owner: after [k] of the owners
    have ended the object is unchanged and [resolve] yields a handle to
    it; after all of them have ended the object has been destroyed,
    once, and [resolve] yields nothing and brings nothing back. The same
    for a pair made anew in that state. And the scenario: [A] holds a
    strong reference to [B], [B] a weak one to [A]; before the owner of
    [A] is released [B]'s weak reference resolves to the [A] object,
    afterwards to nothing; the [A] object is destroyed at that release
    and the [B] object when its last owner ends, each once, and nothing
    of the two stays allocated. *)
Theorem weak_reference_resolves_while_owned (st : state) :
  (∀ (l0 : loc) (blk0 : block A),
     As st !! l0 = Some blk0 →
     run (lock_A (Some l0)) st =
       match use_count blk0 with
       | O => Returns None st
       | S n =>
           Returns (Some l0)
             (with_As
                <[l0 := mkBlock (S (S n)) (weak_count blk0) (object blk0)]> st)
       end) ∧
  (∀ (l : loc) (k m w : nat) (a : A),
     As st !! l = Some (mkBlock (S (k + m)) (S w) (Some a)) →
     shared_elsewhere st (b_ptr a) →
     (∃ st1 st2,
        run (release_shared_A_times k (Some l)) st = Returns tt st1 ∧
        As st1 !! l = Some (mkBlock (S m) (S w) (Some a)) ∧
        cout st1 = cout st ∧
        run (lock_A (Some l)) st1 = Returns (Some l) st2 ∧
        As st2 !! l = Some (mkBlock (S (S m)) (S w) (Some a)) ∧
        cout st2 = cout st) ∧
     (∃ st3,
        run (release_shared_A_times (S (k + m)) (Some l)) st = Returns tt st3 ∧
        As st3 !! l = Some (mkBlock 0 (S w) None) ∧
        cout st3 = cout st ++ ["A Destructor"%string] ∧
        run (lock_A (Some l)) st3 = Returns None st3)) ∧
  (
    let la := fresh (dom (As st)) in
    let lb := fresh (dom (Bs st)) in
    (∃ st1 st2 st3 st4,
       run make_shared_A st = Returns (Some la) st1 ∧
       run (weak_from_shared_A (Some la)) st1 = Returns (Some la) st2 ∧
       run (lock_A (Some la)) st2 = Returns (Some la) st3 ∧
       object <$> As st2 !! la = Some (Some (mkA None)) ∧
       object <$> As st3 !! la = Some (Some (mkA None)) ∧
       run (release_shared_A (Some la)) st2 = Returns tt st4 ∧
       object <$> As st4 !! la = Some None ∧
       run (lock_A (Some la)) st4 = Returns None st4) ∧
    (∃ st1 st2 st3 st4,
       run setup st = Returns (Some la, Some lb) st1 ∧
       run (resolve_a_ptr (Some lb)) st1 = Returns (Some la) st2 ∧
       object <$> As st2 !! la = Some (Some (mkA (Some lb))) ∧
       run (release_shared_A (Some la)) st1 = Returns tt st3 ∧
       cout st3 = cout st1 ++ ["A Destructor"%string] ∧
       object <$> As st3 !! la = Some None ∧
       object <$> Bs st3 !! lb = Some (Some (mkB (Some la))) ∧
       run (resolve_a_ptr (Some lb)) st3 = Returns None st3 ∧
       run (release_shared_B (Some lb)) st3 = Returns tt st4 ∧
       cout st4 = cout st3 ++ ["B Destructor"%string] ∧
       As st4 = As st ∧ Bs st4 = Bs st ∧
       run scenario st = Returns (Some la, Some la, None) st4)).
Proof.
  split; [intros l0 blk0 H0; by apply run_lock_A|].
  split; [|apply resolve_of_a_new_pair_and_in_the_scenario].
  intros l k m w a Hl Hb. split.
  - destruct st as [HA HB o]; cbn [As Bs cout] in *.
    exists (mkState (<[l := mkBlock (S m) (S w) (Some a)]> HA) HB o).
    eexists. split_and!.
    + by apply run_release_shared_A_times.
    + simpl. by rewrite lookup_insert_eq.
    + done.
    + erewrite run_lock_A by (simpl; apply lookup_insert_eq). reflexivity.
    + simpl. rewrite insert_insert_eq. by rewrite lookup_insert_eq.
    + done.
  - destruct st as [HA HB o]; cbn [As Bs cout] in *.
    destruct (run_release_all_owners (k + m) HA HB o l w a Hl Hb) as [HB' R].
    eexists. split_and!.
    + exact R.
    + simpl. by rewrite lookup_insert_eq.
    + done.
    + erewrite run_lock_A by (simpl; apply lookup_insert_eq). reflexivity.
Qed.

(** In the state [main] reaches, for the [A] object it made: [resolve]
    yields a handle, and nothing once the one owner has ended. *)
Lemma weak_reference_resolves_while_owned_in_main :
  As linked !! 1%positive = Some (mkBlock 1 1 (Some (mkA (Some 1%positive)))) ∧
  shared_elsewhere linked (Some 1%positive) ∧
  run (lock_A (Some 1%positive)) linked =
    Returns (Some 1%positive)
      (with_As <[1%positive := mkBlock 2 1 (Some (mkA (Some 1%positive)))]> linked) ∧
  (∃ st1 st2,
     run (release_shared_A_times 0 (Some 1%positive)) linked = Returns tt st1 ∧
     As st1 !! 1%positive = Some (mkBlock 1 1 (Some (mkA (Some 1%positive)))) ∧
     cout st1 = cout linked ∧
     run (lock_A (Some 1%positive)) st1 = Returns (Some 1%positive) st2 ∧
     As st2 !! 1%positive = Some (mkBlock 2 1 (Some (mkA (Some 1%positive)))) ∧
     cout st2 = cout linked) ∧
  (∃ st3,
     run (release_shared_A_times 1 (Some 1%positive)) linked = Returns tt st3 ∧
     As st3 !! 1%positive = Some (mkBlock 0 1 None) ∧
     cout st3 = cout linked ++ ["A Destructor"%string] ∧
     run (lock_A (Some 1%positive)) st3 = Returns None st3).
Proof.
  assert (Hl : As linked !! 1%positive =
               Some (mkBlock 1 1 (Some (mkA (Some 1%positive))))) by reflexivity.
  assert (Hb : shared_elsewhere linked (Some 1%positive)).
  { exists 0, 0, (Some (mkB (Some 1%positive))). reflexivity. }
  split; [exact Hl|]. split; [exact Hb|].
  split.
  - exact (proj1 (weak_reference_resolves_while_owned linked) 1%positive _ Hl).
  - exact (proj1 (proj2 (weak_reference_resolves_while_owned linked))
             1%positive 0 0 0 (mkA (Some 1%positive)) Hl Hb).
Defined.

End WeakPointersFacts.

(** * Further properties of the three programs *)

Module LinkedListMore.
Import LinkedList LinkedListFacts.

Section More.
Context {T : Type}.
Implicit Types (h : gmap loc (ListItem T)) (o vs : list T).

Lemma chain_dom ls vs (s : state T) h :
  chain ls vs s →
  (∀ l, l ∈ ls → h !! l = None) →
  (∀ l, l ∉ ls → heap s !! l = h !! l) →
  dom (heap s) = dom h ∪ list_to_set ls.
Proof.
  intros C Hnew Hold. apply set_eq. intros l.
  rewrite elem_of_union, elem_of_list_to_set, !elem_of_dom.
  destruct (decide (l ∈ ls)) as [Hin|Hout].
  - split; [by right|]. intros _.
    apply list_elem_of_lookup in Hin as [i Hi].
    destruct (chain_lookup _ _ _ _ _ C Hi) as (v & _ & Hn). eauto.
  - rewrite (Hold l Hout). split; [by left|]. by intros [?|?].
Qed.

(** X1. Pushes on a new list, whatever the free store [h] holds: every
    node that was in the store is still there, unchanged, and the store
    has grown by exactly one node per push. *)
Theorem pushes_only_add_nodes h o vs :
  ∃ s, run (pushes vs) (declared h o) = Returns tt s ∧
       h ⊆ heap s ∧
       size (heap s) = size h + length vs.
Proof.
  destruct (pushes_chain vs [] [] (declared h o) (chain_declared h o))
    as (ls & s & Hrun & C & Hlen & _ & Hnew & Hold).
  simpl in *. exists s. split; [done|]. split.
  - apply map_subseteq_spec. intros l n Hl. rewrite Hold; [done|].
    intros Hin. rewrite (Hnew l Hin) in Hl. done.
  - rewrite <- !size_dom, (chain_dom ls vs s h C Hnew Hold).
    rewrite size_union.
    + rewrite size_list_to_set by apply (chain_nodup _ _ _ C). lia.
    + intros l Hl1 Hl2. apply elem_of_list_to_set in Hl2.
      apply elem_of_dom in Hl1 as [n Hn]. rewrite (Hnew l Hl2) in Hn. done.
Qed.

(** X2. [display] on a list that received the pushes [vs], whatever the
    values and the free store before: on the empty list it returns at
    once, having printed nothing and changed nothing; on any other list
    it prints the values in the order of the pushes, changes no node,
    and then executes [current = current->next] on the last node, a
    read of a member that no statement has assigned. The language gives
    that read no value: what [display] does from there on is not
    defined by the source. *)
Theorem display_prints_then_reads_an_unassigned_next h o vs extra :
  ∃ s, run (pushes vs) (declared h o) = Returns tt s ∧
       run (display (length vs + extra)) s =
         match vs with
         | [] => Returns tt s
         | _ :: _ => Undefined IndeterminateRead (with_cout (o ++ vs) s)
         end.
Proof.
  destruct (pushes_declared h o vs) as (ls & s & Hrun & C & Ho & _).
  exists s. split; [done|].
  pose proof (chain_length _ _ _ C) as Hlen.
  destruct vs as [|v vs].
  - destruct ls; [|done]. apply display_empty. apply (chain_head _ _ _ C).
  - destruct ls as [|l ls]; [done|].
    rewrite <- Ho. apply (display_chain _ _ _ _ extra C).
Qed.

End More.
End LinkedListMore.

Module StackMore.
Import Stack StackFacts StackCalls.

Section Calls.
Context {C : Type → Type} `{SequenceContainer C} {T : Type}.
Implicit Types (s : stack C T) (ks : list (call T)).

Lemma do_call_in_contents k s :
  in_contents (run (do_call k) s) = call_on_contents k (contents s).
Proof.
  destruct k as [x| | |v| |]; unfold call_on_contents.
  - destruct (run_push x s) as (s' & R & E).
    unfold do_call. rewrite (run_bind_returns _ _ _ _ _ R). simpl. by rewrite E.
  - unfold do_call.
    destruct (contents s) as [|x l _] eqn:E using rev_ind.
    + rewrite (run_bind_undefined _ _ _ _ _ (run_pop_nil _ E)). simpl. by rewrite E.
    + destruct (run_pop_snoc _ _ _ E) as (s' & R & E').
      rewrite (run_bind_returns _ _ _ _ _ R), seq_pop_back_snoc. simpl. by rewrite E'.
  - unfold do_call.
    destruct (contents s) as [|x l _] eqn:E using rev_ind.
    + rewrite (run_bind_undefined _ _ _ _ _ (run_top_nil _ E)). simpl. by rewrite E.
    + rewrite (run_bind_returns _ _ _ _ _ (run_top_snoc _ _ _ E)), last_snoc.
      simpl. by rewrite E.
  - unfold do_call.
    destruct (contents s) as [|x l _] eqn:E using rev_ind.
    + rewrite (run_bind_undefined _ _ _ _ _ (run_top_assign_nil _ v E)). simpl. by rewrite E.
    + destruct (run_top_assign_snoc _ _ _ v E) as (s' & R & E').
      rewrite (run_bind_returns _ _ _ _ _ R), seq_set_back_snoc. simpl. by rewrite E'.
  - unfold do_call. by rewrite (run_bind_returns _ _ _ _ _ (run_size s)).
  - unfold do_call. by rewrite (run_bind_returns _ _ _ _ _ (run_empty s)).
Qed.

Lemma calls_in_contents ks : ∀ s,
  in_contents (run (calls ks) s) = calls_on_contents ks (contents s).
Proof.
  induction ks as [|k ks IH]; intros s; [done|].
  simpl. rewrite <- do_call_in_contents, run_bind.
  destruct (run (do_call k) s) as [o s'| | |]; simpl; try done.
  rewrite <- IH, run_bind.
  destruct (run (calls ks) s') as [os s''| | |]; done.
Qed.

Lemma calls_on_contents_size ks : ∀ l os l',
  calls_on_contents ks l = Returns os l' →
  length l' + length (filter is_pop ks) = length l + length (filter is_push ks).
Proof.
  induction ks as [|k ks IH]; intros l os l' R; simpl in R.
  - injection R as _ <-. simpl. lia.
  - destruct (call_on_contents k l) as [o l1| | |] eqn:E; try done.
    destruct (calls_on_contents ks l1) as [os1 l2| | |] eqn:E1; try done.
    injection R as _ <-. specialize (IH _ _ _ E1).
    assert (Hpop : length (filter is_pop (k :: ks)) =
                   (if is_pop k then 1 else 0) + length (filter is_pop ks)).
    { rewrite filter_cons.
      destruct (decide _) as [Hk|Hk]; destruct k; simpl in *;
        first [done | exfalso; apply Hk; exact I]. }
    assert (Hpush : length (filter is_push (k :: ks)) =
                    (if is_push k then 1 else 0) + length (filter is_push ks)).
    { rewrite filter_cons.
      destruct (decide _) as [Hk|Hk]; destruct k; simpl in *;
        first [done | exfalso; apply Hk; exact I]. }
    rewrite Hpop, Hpush. clear Hpop Hpush.
    destruct k as [x| | |v| |]; simpl in E |- *.
    + injection E as _ <-. rewrite length_app in IH. simpl in IH. lia.
    + destruct l as [|x l _] using rev_ind; [done|].
      rewrite seq_pop_back_snoc in E. injection E as _ <-.
      rewrite length_app. simpl. lia.
    + destruct (last l); [|done]. injection E as _ <-. lia.
    + destruct l as [|x l _] using rev_ind; [done|].
      rewrite seq_set_back_snoc in E. injection E as _ <-.
      rewrite !length_app in *. simpl in *. lia.
    + injection E as _ <-. lia.
    + injection E as _ <-. lia.
Qed.

End Calls.

(** X3. Over each of the three backings: when a sequence of calls on a
    stack returns, the size of the stack has grown by the number of its
    [push] calls and shrunk by the number of its [pop] calls, in
    whatever order they came; [top], [s.top() = v], [size] and [empty]
    do not count. *)
Theorem size_counts_pushes_and_pops (B : Backing) (T : Type)
    (s0 s1 : stack (container_of B) T) (ks : list (call T)) (os : list (seen T)) :
  run (calls ks) s0 = Returns os s1 →
  length (contents s1) + length (filter is_pop ks) =
  length (contents s0) + length (filter is_push ks).
Proof.
  intros R. pose proof (calls_in_contents ks s0) as E. rewrite R in E. simpl in E.
  symmetry in E. apply (calls_on_contents_size _ _ _ _ E).
Qed.

Lemma size_counts_pushes_and_pops_in_main :
  length (contents (mkStack (mkDeque [] [3; 2; 1]%Z))) +
    length (filter is_pop [Push 1%Z; Push 2%Z; Pop; Push 2%Z; Top; Push 3%Z]) =
  length (contents (stack_new : stack deque Z)) +
    length (filter is_push [Push 1%Z; Push 2%Z; Pop; Push 2%Z; Top; Push 3%Z]).
Proof.
  apply (size_counts_pushes_and_pops Deque Z stack_new _ _
           [Nothing; Nothing; Nothing; Nothing; Value 2%Z; Nothing]).
  reflexivity.
Defined.

(** X4. The backing cannot be told through the adapter: two stacks
    over any two of the three backings that hold the same elements
    answer every sequence of calls alike. They show the same values,
    sizes and flags and end with the same elements, or both break off at
    the same call on an empty stack. *)
Theorem backing_is_not_observable (B1 B2 : Backing) (T : Type)
    (s1 : stack (container_of B1) T) (s2 : stack (container_of B2) T)
    (ks : list (call T)) :
  contents s1 = contents s2 →
  in_contents (run (calls ks) s1) = in_contents (run (calls ks) s2).
Proof. intros E. by rewrite !calls_in_contents, E. Qed.

Lemma backing_is_not_observable_deque_list :
  in_contents (run (calls [Push 1%Z; Top; Pop; Pop])
                 (mkStack (mkDeque [7%Z] [9%Z]) : stack (container_of Deque) Z)) =
  in_contents (run (calls [Push 1%Z; Top; Pop; Pop])
                 (mkStack (mkStdlist [9; 7]%Z) : stack (container_of StdList) Z)).
Proof.
  apply (backing_is_not_observable Deque StdList Z
           (mkStack (mkDeque [7%Z] [9%Z])) (mkStack (mkStdlist [9; 7]%Z))).
  reflexivity.
Defined.

(** X5. Over each of the three backings and on every stack, [empty()]
    and [size()] agree and change nothing: [empty()] is true exactly
    when [size()] is [0]. *)
Theorem empty_agrees_with_size (B : Backing) (T : Type)
    (s0 : stack (container_of B) T) :
  ∃ b n, run empty s0 = Returns b s0 ∧ run size s0 = Returns n s0 ∧
         (b = true ↔ n = 0).
Proof.
  exists (bool_decide (contents s0 = [])), (length (contents s0)).
  split; [apply run_empty|]. split; [apply run_size|].
  rewrite bool_decide_eq_true. by destruct (contents s0).
Qed.

End StackMore.

Module WeakPointersMore.
Import WeakPointers WeakPointersFacts WeakPointersOrder.

Ltac unfold_more := unfold setup_twice.

(** X7. Assigning the same pointers again changes nothing: in any state
    of the free store, a second [a->set_B(b)] and a second [b->set_A(a)]
    leave every reference count as the first calls set it, since each
    assignment gives up the share it replaces. No owner and no observer
    is counted twice. *)
Theorem setting_the_pointers_again_changes_nothing (st : state) :
  run setup_twice st = run setup st.
Proof.
  rewrite run_setup. destruct st as [HA HB o]; simpl.
  unfold_more. unfold_program. exec. by rewrite <- !app_assoc.
Qed.

End WeakPointersMore.

(** * The other programs *)

(** ** [max] *)

Module GenericsFacts.
Import Generics.

(** X8. For every type whose [operator<] is irreflexive and transitive,
    [max(x, y)] is one of its two arguments and neither argument is
    greater than it. *)
Theorem max_is_an_argument_no_less_than_both {T : Type} (lt : T → T → bool) (x y : T) :
  (∀ a, lt a a = false) →
  (∀ a b c, lt a b = true → lt b c = true → lt a c = true) →
  (max lt x y = x ∨ max lt x y = y) ∧
  lt (max lt x y) x = false ∧
  lt (max lt x y) y = false.
Proof.
  intros Hirr Htrans. unfold max. destruct (lt x y) eqn:E.
  - split; [by right|]. split; [|done].
    destruct (lt y x) eqn:E'; [|done].
    by rewrite <- (Hirr x), (Htrans x y x E E').
  - split; [by left|]. by split.
Qed.

Lemma max_is_an_argument_no_less_than_both_at_int :
  (max Z.ltb 1%Z 2%Z = 1%Z ∨ max Z.ltb 1%Z 2%Z = 2%Z) ∧
  Z.ltb (max Z.ltb 1%Z 2%Z) 1%Z = false ∧
  Z.ltb (max Z.ltb 1%Z 2%Z) 2%Z = false.
Proof.
  apply (max_is_an_argument_no_less_than_both Z.ltb 1%Z 2%Z).
  - intros a. apply Z.ltb_irrefl.
  - intros a b c H1 H2. apply Z.ltb_lt in H1, H2. apply Z.ltb_lt. lia.
Defined.

(** X9. At [int], [max] is the greater of the two numbers: it does not
    depend on the order of its arguments and it is associative. *)
Theorem max_int_is_the_greater (x y z : Z) :
  max_int x y = Z.max x y ∧
  max_int x y = max_int y x ∧
  max_int (max_int x y) z = max_int x (max_int y z).
Proof.
  assert (E : ∀ a b, max_int a b = Z.max a b).
  { intros a b. unfold max_int, max. destruct (Z.ltb_spec a b); lia. }
  rewrite !E. lia.
Qed.

End GenericsFacts.

(** ** Miles per gallon *)

Module MpgFacts.
Import Mpg MpgCompare.

Section Facts.
Context {double : Type} (to_double : Z → double) (fdiv : double → double → double).

(** X10. [calculate_mpg] never divides by zero and never returns for a
    negative argument: it throws [DivideByZeroException] exactly when
    [gallons] is [0], also when [miles] is negative;
    [NegativeValueException] exactly when [gallons] is not [0] and one
    of the two is negative; and it returns, with the quotient, exactly
    when [miles >= 0] and [gallons > 0]. The function of the second
    program, written with [else if], throws and returns in the very same
    cases. *)
Theorem calculate_mpg_outcomes (miles gallons : Z) :
  (MpgClasses.calculate_mpg to_double fdiv miles gallons
     = Raise MpgClasses.DivideByZeroException ↔ gallons = 0%Z) ∧
  (MpgClasses.calculate_mpg to_double fdiv miles gallons
     = Raise MpgClasses.NegativeValueException ↔
   gallons ≠ 0%Z ∧ (miles < 0 ∨ gallons < 0)%Z) ∧
  (MpgClasses.calculate_mpg to_double fdiv miles gallons
     = Ok (fdiv (to_double miles) (to_double gallons)) ∧ (0 ≤ miles ∧ 0 < gallons)%Z
   ∨ (∃ ex, MpgClasses.calculate_mpg to_double fdiv miles gallons = Raise ex) ∧
     ¬ (0 ≤ miles ∧ 0 < gallons)%Z) ∧
  MpgClasses.calculate_mpg to_double fdiv miles gallons =
    match MpgInheritance.calculate_mpg to_double fdiv miles gallons with
    | Ok r => Ok r
    | Raise ex => Raise (as_classes ex)
    end.
Proof.
  unfold MpgClasses.calculate_mpg, MpgInheritance.calculate_mpg.
  destruct (Z.eqb_spec gallons 0), (Z.ltb_spec miles 0), (Z.ltb_spec gallons 0);
    simpl; (split; [split; [intros; done || lia|intros; done || lia]|]);
    (split; [split; [intros; done || lia|intros; done || lia]|]);
    (split; [|done]); first [left; split; [done|lia] | right; split; [eauto|lia]].
Qed.

Ltac in_list :=
  repeat (rewrite ?elem_of_app, ?elem_of_cons, ?elem_of_nil in * ).

(** A list given in full ends with its last two items. *)
Ltac ends_with_bye :=
  match goal with
  | |- ∃ before, ?l = before ++ _ => exists (take (length l - 2) l); reflexivity
  end.

(** Looks for a number among the items of a list given in full. *)
Ltac find_real Hd :=
  in_list;
  repeat (destruct Hd as [Hd|Hd]; [try discriminate Hd; lia|]);
  first [destruct Hd | discriminate Hd | lia].

Ltac no_bye H :=
  let before := fresh "before" in
  destruct H as [before H];
  do 3 (destruct before as [|? before]; [discriminate H|]);
  destruct before; discriminate H.

(** X11. The program with the two plain exception classes, for every
    pair of numbers read: [main] returns [0] and the last thing on
    [std::cout] is ["Bye"]; when [miles >= 0] and [gallons > 0] it
    writes the result and nothing to [std::cerr]; otherwise it writes no
    result and one message to [std::cerr], the one about division by
    zero exactly when [gallons] is [0]. *)
Theorem main_reports_a_result_or_an_error (miles gallons : Z) :
  ∃ c, MpgClasses.main to_double fdiv miles gallons = (c, 0%Z) ∧
       (∃ before, cout c = before ++ [Text "Bye"; Endl]) ∧
       ((∃ d, Real d ∈ cout c) ↔ (0 ≤ miles ∧ 0 < gallons)%Z) ∧
       (cerr c = [] ↔ (0 ≤ miles ∧ 0 < gallons)%Z) ∧
       (cerr c = [Text "Sorry, you can't divide by zero"; Endl] ↔ gallons = 0%Z) ∧
       (cerr c = [Text "Sorry, one of your parameters is negative"; Endl] ↔
        gallons ≠ 0%Z ∧ (miles < 0 ∨ gallons < 0)%Z).
Proof.
  unfold MpgClasses.main, MpgClasses.calculate_mpg.
  destruct (Z.eqb_spec gallons 0), (Z.ltb_spec miles 0), (Z.ltb_spec gallons 0);
    simpl; eexists; (split; [reflexivity|]); simpl.
  all: split; [ends_with_bye|].
  all: split; [split; [intros [d Hd]; find_real Hd
                      |intros ?; try lia; eexists; in_list; eauto 10]|].
  all: split; [split; intros; done || lia|].
  all: split; [split; intros; done || lia|].
  all: split; intros; done || lia.
Qed.

(** X12. The program with the classes derived from [std::runtime_error]
    behaves in the same way, and what it writes to [std::cerr] is the
    [what()] of the exception: ["Cannot divide by zero"] exactly when
    [gallons] is [0], ["one of your parameters is negative"] exactly
    when [gallons] is not [0] and one of the two numbers is negative. *)
Theorem main_reports_what_was_thrown (miles gallons : Z) :
  ∃ c, MpgInheritance.main to_double fdiv miles gallons = (c, 0%Z) ∧
       (∃ before, cout c = before ++ [Text "Bye"; Endl]) ∧
       ((∃ d, Real d ∈ cout c) ↔ (0 ≤ miles ∧ 0 < gallons)%Z) ∧
       (cerr c = [] ↔ (0 ≤ miles ∧ 0 < gallons)%Z) ∧
       (cerr c = [Text "Cannot divide by zero"; Endl] ↔ gallons = 0%Z) ∧
       (cerr c = [Text "one of your parameters is negative"; Endl] ↔
        gallons ≠ 0%Z ∧ (miles < 0 ∨ gallons < 0)%Z).
Proof.
  unfold MpgInheritance.main, MpgInheritance.calculate_mpg.
  destruct (Z.eqb_spec gallons 0), (Z.ltb_spec miles 0), (Z.ltb_spec gallons 0);
    simpl; eexists; (split; [reflexivity|]); simpl.
  all: split; [ends_with_bye|].
  all: split; [split; [intros [d Hd]; find_real Hd
                      |intros ?; try lia; eexists; in_list; eauto 10]|].
  all: split; [split; intros; done || lia|].
  all: split; [split; intros; done || lia|].
  all: split; intros; done || lia.
Qed.

(** X13. The program that throws again, for every pair of numbers read:
    an exception leaves [main] exactly when [miles >= 0] and
    [gallons > 1000]; it is the [std::string], and then ["Unknown error"]
    is on [std::cerr] and ["Bye"] is never written. In every other case
    [main] returns [0], ends its output with ["Bye"] and writes nothing
    to [std::cerr]. A result is written exactly when [miles >= 0] and
    [0 < gallons <= 1000]. *)
Theorem main_rethrows_only_for_large_gallons (miles gallons : Z) :
  ∃ c r, MpgRethrow.main to_double fdiv miles gallons = (c, r) ∧
    (r = Raise (MpgRethrow.ThrowString "Huh") ↔ (0 ≤ miles ∧ 1000 < gallons)%Z) ∧
    (r = Ok 0%Z ↔ ¬ (0 ≤ miles ∧ 1000 < gallons)%Z) ∧
    (r = Ok 0%Z ↔ ∃ before, cout c = before ++ [Text "Bye"; Endl]) ∧
    (r = Ok 0%Z ↔ cerr c = []) ∧
    (cerr c = [] ∨ cerr c = [Text "Unknown error"; Endl]) ∧
    ((∃ d, Real d ∈ cout c) ↔ (0 ≤ miles ∧ 0 < gallons ∧ gallons ≤ 1000)%Z).
Proof.
  unfold MpgRethrow.main, MpgRethrow.try_block.
  destruct (Z.eqb_spec gallons 0), (Z.ltb_spec miles 0), (Z.ltb_spec gallons 0),
    (Z.ltb_spec 1000 gallons); simpl; try lia;
    do 2 eexists; (split; [reflexivity|]); simpl.
  all: split; [split; intros; done || lia|].
  all: split; [split; intros; done || lia|].
  all: split; [split; [intros; try done; ends_with_bye
                      |intros Hb; try done; no_bye Hb]|].
  all: split; [split; intros; done|].
  all: split; [first [by left | by right]|].
  all: split; [intros [d Hd]; find_real Hd
              |intros ?; try lia; eexists; in_list; eauto 10].
Qed.

End Facts.
End MpgFacts.

(** ** Enumerations *)

Module ScopedEnumsFacts.
Import Console ScopedEnums.

Lemma filter_valid_cons (g : Grocery_Item) (l : list Grocery_Item) :
  length (filter is_valid_grocery_item (g :: l)) =
  (if is_valid_grocery_item g then 1 else 0) + length (filter is_valid_grocery_item l).
Proof.
  rewrite filter_cons.
  destruct (decide _) as [Hg|Hg]; destruct (is_valid_grocery_item g); simpl in *;
    first [done | exfalso; apply Hg; exact I].
Qed.

(** The loop, as long as the counters stay within [int]. *)
Lemma display_loop_counts (l : list Grocery_Item) : ∀ out i v,
  (0 ≤ i)%Z → (0 ≤ v)%Z → (i + v + Z.of_nat (length l) ≤ INT_MAX)%Z →
  display_loop l out i v =
  Some (out ++ flat_map (λ g, insert_Grocery_Item g ++ [Endl]) l,
        (i + Z.of_nat (length l) - Z.of_nat (length (filter is_valid_grocery_item l)))%Z,
        (v + Z.of_nat (length (filter is_valid_grocery_item l)))%Z).
Proof.
  induction l as [|g l IH]; intros out i v Hi Hv Hmax.
  - simpl. rewrite app_nil_r. f_equal.
    apply pair_equal_spec; split; [apply pair_equal_spec; split; [done|lia]|lia].
  - rewrite filter_valid_cons. cbn [display_loop flat_map length].
    change (length (g :: l)) with (S (length l)) in Hmax.
    rewrite Nat2Z.inj_succ in Hmax |- *.
    destruct (is_valid_grocery_item g).
    + unfold increment. destruct (Z.ltb_spec v INT_MAX); [|lia]. simpl.
      rewrite IH by lia. rewrite <- app_assoc. f_equal.
      apply pair_equal_spec; split; [apply pair_equal_spec; split; [done|lia]|lia].
    + unfold increment. destruct (Z.ltb_spec i INT_MAX); [|lia]. simpl.
      rewrite IH by lia. rewrite <- app_assoc. f_equal.
      apply pair_equal_spec; split; [apply pair_equal_spec; split; [done|lia]|lia].
Qed.

(** X14. [display_grocery_list] on a list of at most [INT_MAX] items:
    it writes one line per item, in order, and then the three counts;
    the count of valid items is the number of items that
    [is_valid_grocery_item] accepts, the two counts add up to the
    length of the list, and this length is the total written. *)
Theorem display_grocery_list_counts_every_item (l : list Grocery_Item) :
  (Z.of_nat (length l) ≤ INT_MAX)%Z →
  ∃ valid invalid,
    display_grocery_list l =
      Some ([Text "Grocery List"; Text "\n=============================="; Endl]
            ++ flat_map (λ g, insert_Grocery_Item g ++ [Endl]) l
            ++ [Text "=============================="; Endl;
                Text "Valid items: "; Int valid; Endl;
                Text "Invalid items: "; Int invalid; Endl;
                Text "Total items: "; Int (Z.of_nat (length l)); Endl]) ∧
    valid = Z.of_nat (length (filter is_valid_grocery_item l)) ∧
    (0 ≤ invalid)%Z ∧
    (valid + invalid)%Z = Z.of_nat (length l).
Proof.
  intros Hmax.
  pose proof (length_filter is_valid_grocery_item l) as Hle.
  exists (Z.of_nat (length (filter is_valid_grocery_item l))),
         (Z.of_nat (length l) - Z.of_nat (length (filter is_valid_grocery_item l)))%Z.
  split; [|split; [done|lia]].
  unfold display_grocery_list. rewrite display_loop_counts by lia.
  rewrite !Z.add_0_l. cbn [mbind option_bind]. unfold add.
  set (v := Z.of_nat (length (filter is_valid_grocery_item l))) in *.
  replace (v + (Z.of_nat (length l) - v))%Z with (Z.of_nat (length l)) by lia.
  rewrite (proj2 (Z.leb_le _ _) Hmax). simpl. by rewrite <- ?app_assoc.
Qed.

Lemma display_grocery_list_counts_every_item_in_test1 :
  ∃ valid invalid,
    display_grocery_list [Apple; Milk; Orange; 1000%Z; 350%Z] =
      Some ([Text "Grocery List"; Text "\n=============================="; Endl]
            ++ flat_map (λ g, insert_Grocery_Item g ++ [Endl])
                 [Apple; Milk; Orange; 1000%Z; 350%Z]
            ++ [Text "=============================="; Endl;
                Text "Valid items: "; Int valid; Endl;
                Text "Invalid items: "; Int invalid; Endl;
                Text "Total items: ";
                Int (Z.of_nat (length [Apple; Milk; Orange; 1000%Z; 350%Z])); Endl]) ∧
    valid = Z.of_nat (length (filter is_valid_grocery_item
                                [Apple; Milk; Orange; 1000%Z; 350%Z])) ∧
    (0 ≤ invalid)%Z ∧
    (valid + invalid)%Z = Z.of_nat (length [Apple; Milk; Orange; 1000%Z; 350%Z]).
Proof.
  apply (display_grocery_list_counts_every_item [Apple; Milk; Orange; 1000%Z; 350%Z]).
  vm_compute. discriminate.
Defined.

(** X15. The two [switch] statements over [Grocery_Item] agree: an
    item is valid exactly when its value is one of the four item codes
    350, 250, 132 and 100, and it is written as ["Invalid item"], with
    its value, exactly when it is not valid. Any other number converted
    to [Grocery_Item] is invalid, and 350 converted is [Milk]. *)
Theorem valid_items_are_the_named_ones (g : Grocery_Item) :
  (is_valid_grocery_item g = true ↔ g = 350 ∨ g = 250 ∨ g = 132 ∨ g = 100)%Z ∧
  (is_valid_grocery_item g = false ↔
   insert_Grocery_Item g = [Text "Invalid item"; Text " : "; Int g]) ∧
  insert_Grocery_Item 350%Z = [Text "Milk"; Text " : "; Int 350%Z].
Proof.
  unfold is_valid_grocery_item, insert_Grocery_Item, Milk, Bread, Apple, Orange.
  destruct (Z.eqb_spec g 350), (Z.eqb_spec g 250), (Z.eqb_spec g 132),
    (Z.eqb_spec g 100); simpl; try lia.
  all: split; [split; intros; done || lia|].
  all: split; [split; intros; done|done].
Qed.

End ScopedEnumsFacts.

Module UnscopedEnumsFacts.
Import Console UnscopedEnums.

(** X16. The launch program, for every number read: exactly one
    sequence is initiated; it is [Launch] only when the number is 2
    ([Nominal]), [Hold] only when it is 1 ([Inclement_Weather]), and
    [Abort] for every other number, whether it names a state or not.
    The complaint about an invalid state is written exactly when the
    number is outside 0..3, and the state stored is always one of the
    four enumerators. *)
Theorem only_nominal_launches (user_input : Z) :
  ∃ sequence,
    main user_input =
      ([Text "\n--- Test3 --------------------------\n"; Endl; Text "Launch state: "]
       ++ fst (extract_State user_input) ++ initiate sequence ++ [Text "\n"], 0%Z) ∧
    (sequence = Launch ↔ user_input = 2%Z) ∧
    (sequence = Hold ↔ user_input = 1%Z) ∧
    (sequence = Abort ↔ user_input ≠ 1%Z ∧ user_input ≠ 2%Z) ∧
    (fst (extract_State user_input) = [] ↔ (0 ≤ user_input ≤ 3)%Z) ∧
    (0 ≤ snd (extract_State user_input) ≤ 3)%Z.
Proof.
  unfold main, test3, extract_State, Engine_Failure, Inclement_Weather, Nominal, Unknown.
  destruct (Z.eqb_spec user_input 0), (Z.eqb_spec user_input 1),
    (Z.eqb_spec user_input 2), (Z.eqb_spec user_input 3); simpl; try lia.
  all: try subst user_input; simpl.
  all: first [ exists Abort; split; [reflexivity|]
             | exists Hold; split; [reflexivity|]
             | exists Launch; split; [reflexivity|] ].
  all: split; [split; intros; done || lia|].
  all: split; [split; intros; done || lia|].
  all: split; [split; intros; done || lia|].
  all: split; [split; intros; done || lia|simpl; lia].
Qed.

End UnscopedEnumsFacts.

(** ** The shallow copy *)

Module ShallowCopyFacts.
Import Console ShallowCopy.

Ltac exec :=
  repeat (first
    [ progress (unfold run, mbind, M_bind, mret, M_ret, get, put, modify, undefined,
                 write, new_int, store, load, delete_int; simpl)
    | rewrite lookup_insert_eq
    | rewrite lookup_delete_eq
    | rewrite insert_insert_eq
    | rewrite delete_insert_eq ]).

Ltac unfold_program :=
  unfold main, display_shallow, Shallow_ctor, Shallow_copy, Shallow_dtor,
    set_data_value, get_data_value.

(** X17. [display_shallow] releases the storage of the object it is
    given: called on an object whose [data] holds a value, it writes the
    value between the lines of the copy constructor and the destructor
    and returns with that storage deleted; from then on reading or
    setting the value of the caller's object, and destroying it, are
    accesses through a pointer to released storage. *)
Theorem display_shallow_releases_the_callers_data (st : state) (obj : Shallow) (v d : Z) :
  heap st !! data obj = Some (Some v) →
  ∃ st', run (display_shallow obj) st = Returns tt st' ∧
         heap st' = delete (data obj) (heap st) ∧
         cout st' = cout st ++ [Text "Copy constructor  - shallow copy"; Endl;
                                Int v; Endl;
                                Text "Destructor freeing data"; Endl] ∧
         run (get_data_value obj) st' = Undefined InvalidPointer st' ∧
         run (set_data_value obj d) st' = Undefined InvalidPointer st' ∧
         run (Shallow_dtor obj) st' = Undefined InvalidPointer st'.
Proof.
  intros Hv. destruct st as [h o], obj as [l]; simpl in *.
  eexists. split.
  { unfold_program. exec. rewrite Hv. exec. rewrite Hv. exec. reflexivity. }
  simpl. split; [done|]. split; [by rewrite <- !app_assoc|].
  split; [|split]; unfold_program; exec; reflexivity.
Qed.

Lemma display_shallow_releases_the_callers_data_of_obj1 :
  ∃ st', run (display_shallow (mkShallow 1%positive))
             (mkState {[1%positive := Some 100%Z]} []) = Returns tt st' ∧
         heap st' = delete (data (mkShallow 1%positive))
                      (heap (mkState {[1%positive := Some 100%Z]} [])) ∧
         cout st' = cout (mkState {[1%positive := Some 100%Z]} [])
                    ++ [Text "Copy constructor  - shallow copy"; Endl;
                        Int 100%Z; Endl;
                        Text "Destructor freeing data"; Endl] ∧
         run (get_data_value (mkShallow 1%positive)) st' = Undefined InvalidPointer st' ∧
         run (set_data_value (mkShallow 1%positive) 1000%Z) st'
           = Undefined InvalidPointer st' ∧
         run (Shallow_dtor (mkShallow 1%positive)) st' = Undefined InvalidPointer st'.
Proof.
  apply (display_shallow_releases_the_callers_data
           (mkState {[1%positive := Some 100%Z]} []) (mkShallow 1%positive) 100%Z 1000%Z).
  reflexivity.
Defined.

(** X18. [main], in any state of the free store, does not reach its
    [return]: after [display_shallow(obj1)] has written [100] and
    released the storage of [obj1], the copy [obj2] shares the dangling
    pointer and [obj2.set_data_value(1000)] writes through it. Up to
    there the output is the copy line, [100], the destructor line and
    the second copy line, and the one [int] allocated is released. *)
Theorem main_writes_through_a_dangling_pointer (st : state) :
  run main st =
  Undefined InvalidPointer
    (mkState (heap st)
       (cout st ++ [Text "Copy constructor  - shallow copy"; Endl;
                    Int 100%Z; Endl;
                    Text "Destructor freeing data"; Endl;
                    Text "Copy constructor  - shallow copy"; Endl])).
Proof.
  assert (F : heap st !! fresh (dom (heap st)) = None)
    by (apply not_elem_of_dom, is_fresh).
  destruct st as [h o]; simpl in *.
  unfold_program. exec. rewrite delete_id by done.
  by rewrite <- !app_assoc.
Qed.

End ShallowCopyFacts.

(** ** Copying files *)

Module FilesFacts.
Import Console Files.

Lemma read_line_shorter (c : ascii) (rest : text) :
  length (snd (read_line (c :: rest))) ≤ length rest.
Proof.
  revert c. induction rest as [|c' rest IH]; intros c; simpl.
  - by destruct (decide (c = newline)).
  - destruct (decide (c = newline)); simpl; [lia|].
    specialize (IH c'). simpl in IH.
    destruct (decide (c' = newline)); simpl in *; [lia|].
    destruct (read_line rest); simpl in *. lia.
Qed.

(** What [getline] reads first is the first of the lines. *)
Lemma lines_from_read_line (rest : text) : ∀ current,
  rest ≠ [] →
  lines_from current rest =
  (current ++ fst (read_line rest)) :: lines_from [] (snd (read_line rest)).
Proof.
  induction rest as [|c rest IH]; intros current Hne; [done|].
  simpl. destruct (decide (c = newline)); simpl.
  - by rewrite app_nil_r.
  - destruct rest as [|c' rest].
    + simpl. by destruct current.
    + rewrite IH by done. destruct (read_line (c' :: rest)); simpl.
      by rewrite <- app_assoc.
Qed.

Lemma missing_newline_after (current rest : text) :
  missing_newline (current ++ newline :: rest) = missing_newline rest.
Proof.
  unfold missing_newline. rewrite last_app_cons, last_cons.
  destruct (last rest); [done|]. by rewrite decide_True.
Qed.

(** The lines, each with a newline behind it, are the text with the
    newline it lacks. *)
Lemma lines_from_flat (rest : text) : ∀ current,
  newline ∉ current →
  flat_map (λ line, line ++ [newline]) (lines_from current rest) =
  (current ++ rest) ++ missing_newline (current ++ rest).
Proof.
  induction rest as [|c rest IH]; intros current Hc.
  - rewrite app_nil_r. destruct current as [|a current]; [done|].
    cbn [lines_from flat_map]. rewrite app_nil_r. f_equal.
    unfold missing_newline.
    destruct (last (a :: current)) as [c|] eqn:E; [|by apply last_None in E].
    rewrite decide_False; [done|].
    intros ->. apply Hc. by apply last_Some_elem_of.
  - simpl. destruct (decide (c = newline)) as [->|Hn]; simpl.
    + rewrite (IH [] ltac:(by apply not_elem_of_nil)). simpl.
      rewrite missing_newline_after. by rewrite <- !app_assoc.
    + rewrite IH.
      * by rewrite <- !app_assoc.
      * intros Hin. apply elem_of_app in Hin as [?|Hin]; [done|].
        apply list_elem_of_singleton in Hin. done.
Qed.

Lemma missing_newline_twice (content : text) :
  missing_newline (content ++ missing_newline content) = [].
Proof.
  unfold missing_newline at 2. destruct (last content) as [c|] eqn:E.
  - destruct (decide (c = newline)) as [->|Hn].
    + rewrite app_nil_r. unfold missing_newline. rewrite E. by rewrite decide_True.
    + unfold missing_newline. rewrite last_snoc. by rewrite decide_True.
  - rewrite app_nil_r. unfold missing_newline. by rewrite E.
Qed.

End FilesFacts.

Module WriteFileFacts.
Import Console Files FilesFacts WriteFile.

Lemma copy_loop_lines (fuel : nat) : ∀ rest out,
  length rest ≤ fuel →
  copy_loop fuel rest out =
  Done (out ++ flat_map (λ line, line ++ [newline]) (lines rest)).
Proof.
  induction fuel as [|fuel IH]; intros rest out Hf.
  - destruct rest; [|simpl in Hf; lia]. simpl. by rewrite app_nil_r.
  - destruct rest as [|c rest].
    + simpl. by rewrite app_nil_r.
    + unfold lines. rewrite (lines_from_read_line (c :: rest)) by done.
      pose proof (read_line_shorter c rest) as Hs.
      cbn [copy_loop getline]. destruct (read_line (c :: rest)) as [line rest'].
      simpl in *. rewrite IH by lia. unfold lines. by rewrite <- !app_assoc.
Qed.

Lemma main_copies (t : text) (extra : nat) :
  main (mkWorld (Some t) true) (length t + extra) =
  Done (mkReport 0 [Text "File copied"; Endl] [] (Some (t ++ missing_newline t))).
Proof.
  unfold main; simpl. rewrite copy_loop_lines by lia. unfold lines.
  rewrite lines_from_flat by apply not_elem_of_nil. done.
Qed.

(** X19. The copy, when both files open: [main] returns [0], reports
    ["File copied"], and the output file holds the input followed by a
    newline if the input is not empty and does not end with one;
    otherwise the two files are equal. Copying the copy changes nothing
    any more. *)
Theorem copy_is_the_input_with_a_final_newline (content : text) (extra : nat) :
  main (mkWorld (Some content) true) (length content + extra) =
    Done (mkReport 0 [Text "File copied"; Endl] []
            (Some (content ++ missing_newline content))) ∧
  main (mkWorld (Some (content ++ missing_newline content)) true)
       (length (content ++ missing_newline content) + extra) =
    Done (mkReport 0 [Text "File copied"; Endl] []
            (Some (content ++ missing_newline content))).
Proof.
  split; [apply main_copies|].
  rewrite main_copies, missing_newline_twice, app_nil_r. done.
Qed.

(** X20. Whatever the program finds, [main] ends, and it returns [0]
    exactly when both files could be opened; otherwise it returns [1],
    writes nothing to [std::cout] and one message to [std::cerr], the
    one about the input file whenever the input file is missing. A run
    that fails for the input file has already emptied the output file
    if that could be opened. *)
Theorem copy_fails_with_one_message (w : world) (extra : nat) :
  ∃ r, main w (length (default [] (input w)) + extra) = Done r ∧
       (returned r = 0%Z ↔ is_Some (input w) ∧ output_opens w = true) ∧
       (returned r = 0%Z ∨
        returned r = 1%Z ∧ cout r = [] ∧
        (cerr r = [Text "Error opening input file"; Endl] ∧ input w = None ∨
         cerr r = [Text "Error opening output file"; Endl] ∧ is_Some (input w) ∧
           output_opens w = false)) ∧
       (input w = None →
        written r = if output_opens w then Some [] else None).
Proof.
  destruct w as [[content|] [|]]; simpl.
  - rewrite (main_copies content extra). eexists. split; [done|]. simpl.
    split; [split; [eauto|done]|]. split; [by left|done].
  - eexists. split; [done|]. simpl.
    split; [split; [done|by intros [_ ?]]|]. split; [|done].
    right. split; [done|]. split; [done|]. right. eauto.
  - eexists. split; [done|]. simpl.
    split; [split; [done|by intros [[? ?] _]]|]. split; [|done].
    right. split; [done|]. split; [done|]. by left.
  - eexists. split; [done|]. simpl.
    split; [split; [done|by intros [[? ?] _]]|]. split; [|done].
    right. split; [done|]. split; [done|]. by left.
Qed.

End WriteFileFacts.

Module Challenge4Facts.
Import Console Files FilesFacts Challenge4.

Section Facts.
Context (digits : Z → text).

Lemma not_empty_cons (line : text) (ls : list text) :
  length (not_empty (line :: ls)) =
  (match line with [] => 0 | _ :: _ => 1 end) + length (not_empty ls).
Proof.
  unfold not_empty. rewrite filter_cons.
  destruct (decide (line ≠ [])) as [Hl|Hl]; destruct line; simpl;
    first [done | exfalso; by apply Hl].
Qed.

(** The loop writes the numbered copy of the lines that are left, if
    the output stream is open, and counts the lines that are not empty. *)
Lemma number_loop_lines (fuel : nat) : ∀ rest out_file n,
  length rest ≤ fuel →
  (0 ≤ n)%Z →
  (n + Z.of_nat (length (not_empty (lines rest))) ≤ INT_MAX)%Z →
  number_loop digits fuel rest out_file n =
  Done ((λ o, o ++ numbered digits n (lines rest)) <$> out_file,
        (n + Z.of_nat (length (not_empty (lines rest))))%Z).
Proof.
  induction fuel as [|fuel IH]; intros rest out_file n Hf Hn Hmax.
  - destruct rest; [|simpl in Hf; lia]. simpl.
    rewrite Z.add_0_r. destruct out_file; simpl; by rewrite ?app_nil_r.
  - destruct rest as [|c rest].
    + simpl. rewrite Z.add_0_r. destruct out_file; simpl; by rewrite ?app_nil_r.
    + revert Hmax. unfold lines.
      rewrite (lines_from_read_line (c :: rest)) by done.
      pose proof (read_line_shorter c rest) as Hs.
      cbn [number_loop getline]. destruct (read_line (c :: rest)) as [line rest'].
      simpl in Hs, Hf. cbn [fst snd app]. rewrite not_empty_cons. intros Hmax.
      fold (lines rest') in *.
      destruct line as [|a line].
      * rewrite IH by lia. simpl. f_equal.
        apply pair_equal_spec. split; [|lia].
        destruct out_file; simpl; by rewrite <- ?app_assoc.
      * unfold increment. destruct (Z.ltb_spec n INT_MAX); [|lia].
        rewrite IH by lia. f_equal.
        apply pair_equal_spec. split; [|lia].
        destruct out_file; simpl; [|done]. f_equal.
        rewrite <- !app_assoc. simpl. by rewrite <- !app_assoc.
Qed.

(** X21. The numbered copy, when both files open and the input has at
    most [INT_MAX] lines that are not empty: [main] returns [0] and the
    output file holds the lines of the input in order, an empty line as
    an empty line without a number, and every other line behind its
    number, where the numbers count the lines that are not empty from 1
    and are filled up with blanks to seven characters. *)
Theorem numbered_copy_counts_the_lines_that_are_not_empty (content : text) (extra : nat) :
  (Z.of_nat (length (not_empty (lines content))) ≤ INT_MAX)%Z →
  main digits (mkWorld (Some content) true) (length content + extra) =
  Done (mkReport 0 [Text "\nCopy complete"; Endl] []
          (Some (numbered digits 0 (lines content)))).
Proof.
  intros Hmax. unfold main; simpl.
  rewrite number_loop_lines by lia. done.
Qed.

(** X22. The numbered copy does not notice an output file that cannot
    be opened: its second test looks at the input stream again. With the
    input file open and the output file not, [main] still reports
    ["Copy complete"] and returns [0], and nothing has been written
    anywhere. *)
Theorem numbered_copy_reports_success_without_an_output_file
    (content : text) (extra : nat) :
  (Z.of_nat (length (not_empty (lines content))) ≤ INT_MAX)%Z →
  main digits (mkWorld (Some content) false) (length content + extra) =
  Done (mkReport 0 [Text "\nCopy complete"; Endl] [] None).
Proof.
  intros Hmax. unfold main; simpl.
  rewrite number_loop_lines by lia. done.
Qed.

End Facts.

Lemma numbered_copy_counts_the_lines_that_are_not_empty_of_three :
  main (λ _, ["7"%char])
    (mkWorld (Some ["a"%char; newline; newline; "b"%char]) true)
    (length ["a"%char; newline; newline; "b"%char] + 0) =
  Done (mkReport 0 [Text "\nCopy complete"; Endl] []
          (Some (numbered (λ _, ["7"%char]) 0
                   (lines ["a"%char; newline; newline; "b"%char])))).
Proof.
  apply (numbered_copy_counts_the_lines_that_are_not_empty (λ _, ["7"%char])
           ["a"%char; newline; newline; "b"%char] 0).
  vm_compute. discriminate.
Defined.

Lemma numbered_copy_reports_success_without_an_output_file_of_three :
  main (λ _, ["7"%char])
    (mkWorld (Some ["a"%char; newline; newline; "b"%char]) false)
    (length ["a"%char; newline; newline; "b"%char] + 0) =
  Done (mkReport 0 [Text "\nCopy complete"; Endl] [] None).
Proof.
  apply (numbered_copy_reports_success_without_an_output_file (λ _, ["7"%char])
           ["a"%char; newline; newline; "b"%char] 0).
  vm_compute. discriminate.
Defined.

End Challenge4Facts.
